(** * BaseBMS: device matching and derived-value calculation

    A shallow embedding of [BaseBMS.supported] and [BaseBMS.calc_values]
    (custom_components/bms_ble/plugins/seplosv3.py).

    [calc_values] mutates a Python [dict[str, int | float | bool]] in place
    and may be left by an exception, so it is embedded in a state-and-exception
    monad over the dictionary.  The dictionary is a [gmap string value], the
    requested names a [gset string], and the three Python number types keep
    their own arithmetic: unbounded integers ([Z]), booleans (a subtype of
    int), and IEEE-754 binary64 floats ([spec_float] at precision 53). *)

From Stdlib Require Import ZArith Bool List Permutation.
From Stdlib Require Import Floats.SpecFloat.
From stdpp Require Import gmap strings list fin_maps.

Local Open Scope Z_scope.

(** ** Python values and their arithmetic *)

Module Py.

(** binary64: 53 bits of mantissa, infinities at exponent 1024. *)
Definition prec : Z := 53.
Definition emax : Z := 1024.

Inductive value : Type :=
| Bool (b : bool)
| Int (z : Z)
| Float (f : spec_float).

(** The built-in exceptions the operators below can raise. *)
Inductive exn : Type :=
| KeyError (k : string)
| ZeroDivisionError
| OverflowError
| ValueError.

Inductive result (A : Type) : Type :=
| Ok (a : A)
| Raise (e : exn).
Arguments Ok {A} a.
Arguments Raise {A} e.

Definition rbind {A B} (r : result A) (k : A -> result B) : result B :=
  match r with
  | Ok a => k a
  | Raise e => Raise e
  end.

Definition fzero : spec_float := S754_zero false.

(** [float(z)]: round to nearest, ties to even; an integer beyond the float
    range raises OverflowError. *)
Definition float_of_int (z : Z) : result spec_float :=
  match binary_normalize prec emax z 0 false with
  | S754_infinity _ => Raise OverflowError
  | f => Ok f
  end.

(** The operand conversion of mixed arithmetic: bool and int go through
    [float_of_int], a float is taken as it is. *)
Definition to_float (v : value) : result spec_float :=
  match v with
  | Bool b => float_of_int (Z.b2z b)
  | Int z => float_of_int z
  | Float f => Ok f
  end.

(** [v * w]: integer product on bool and int operands, float product as
    soon as one operand is a float.  A float product that overflows is an
    infinity, not an exception. *)
Definition mul (v w : value) : result value :=
  match v, w with
  | Bool a, Bool b => Ok (Int (Z.b2z a * Z.b2z b))
  | Bool a, Int b => Ok (Int (Z.b2z a * b))
  | Int a, Bool b => Ok (Int (a * Z.b2z b))
  | Int a, Int b => Ok (Int (a * b))
  | _, _ =>
      rbind (to_float v) (fun a =>
      rbind (to_float w) (fun b =>
      Ok (Float (SFmul prec emax a b))))
  end.

(** [v > 0] and [v < 0] against the integer literal 0; a NaN compares
    false both ways. *)
Definition gt_zero (v : value) : bool :=
  match v with
  | Bool b => 0 <? Z.b2z b
  | Int z => 0 <? z
  | Float f => SFltb fzero f
  end.

Definition lt_zero (v : value) : bool :=
  match v with
  | Bool b => Z.b2z b <? 0
  | Int z => z <? 0
  | Float f => SFltb f fzero
  end.

(** [abs(v)] *)
Definition abs (v : value) : value :=
  match v with
  | Bool b => Int (Z.b2z b)
  | Int z => Int (Z.abs z)
  | Float f => Float (SFabs f)
  end.

Definition sf_of_Z (z : Z) : spec_float :=
  match z with
  | Z0 => S754_zero false
  | Zpos p => S754_finite false p 0
  | Zneg p => S754_finite true p 0
  end.

(** True division of two integers: the exact quotient, rounded once. *)
Definition int_truediv (a b : Z) : result value :=
  if b =? 0 then Raise ZeroDivisionError
  else match SFdiv prec emax (sf_of_Z a) (sf_of_Z b) with
       | S754_infinity _ => Raise OverflowError
       | q => Ok (Float q)
       end.

Definition float_truediv (a b : spec_float) : result value :=
  if SFeqb b fzero then Raise ZeroDivisionError
  else Ok (Float (SFdiv prec emax a b)).

(** [v / w] *)
Definition truediv (v w : value) : result value :=
  match v, w with
  | Bool a, Bool b => int_truediv (Z.b2z a) (Z.b2z b)
  | Bool a, Int b => int_truediv (Z.b2z a) b
  | Int a, Bool b => int_truediv a (Z.b2z b)
  | Int a, Int b => int_truediv a b
  | _, _ =>
      rbind (to_float v) (fun a =>
      rbind (to_float w) (fun b =>
      float_truediv a b))
  end.

(** [int(v)]: truncation towards zero; an infinity raises OverflowError
    and a NaN raises ValueError. *)
Definition int_ (v : value) : result value :=
  match v with
  | Bool b => Ok (Int (Z.b2z b))
  | Int z => Ok (Int z)
  | Float (S754_zero _) => Ok (Int 0)
  | Float (S754_infinity _) => Raise OverflowError
  | Float S754_nan => Raise ValueError
  | Float (S754_finite s m e) => Ok (Int (cond_Zopp s (Z.shiftl (Zpos m) e)))
  end.

(** A float literal with an integral value, such as [12.0]. *)
Definition flit (z : Z) : value := Float (binary_normalize prec emax z 0 false).

End Py.

Import Py.

(** ** Constants *)

(** The metric names are imported from [..const], which is not among the
    sources; each takes the name the spec's fixed vocabulary gives it. *)

(** Modelled from the spec: [ATTR_VOLTAGE] of [..const], the metric name "voltage". *)
Definition ATTR_VOLTAGE : string := "voltage".

(** Modelled from the spec: [ATTR_CURRENT] of [..const], the metric name "current". *)
Definition ATTR_CURRENT : string := "current".

(** Modelled from the spec: [ATTR_CYCLE_CHRG] of [..const], the metric name "cycle-charge". *)
Definition ATTR_CYCLE_CHRG : string := "cycle-charge".

(** Modelled from the spec: [ATTR_CYCLE_CAP] of [..const], the metric name "cycle-capacity". *)
Definition ATTR_CYCLE_CAP : string := "cycle-capacity".

(** Modelled from the spec: [ATTR_POWER] of [..const], the metric name "power". *)
Definition ATTR_POWER : string := "power".

(** Modelled from the spec: [ATTR_BATTERY_CHARGING] of [..const], the metric name "charging-flag". *)
Definition ATTR_BATTERY_CHARGING : string := "charging-flag".

(** Modelled from the spec: [ATTR_RUNTIME] of [..const], the metric name "runtime". *)
Definition ATTR_RUNTIME : string := "runtime".

(** [homeassistant.util.unit_conversion._HRS_TO_SECS] is [60 * 60]. *)
Definition _HRS_TO_SECS : value := Int (60 * 60).

(** ** The dictionary monad *)

(** [dict[str, int | float | bool]] *)
Abbreviation data_t := (gmap string value) (only parsing).

Definition M (A : Type) : Type := gmap string value -> result A * gmap string value.

Definition ret {A} (a : A) : M A := fun d => (Ok a, d).

Definition bind {A B} (m : M A) (k : A -> M B) : M B :=
  fun d =>
    match m d with
    | (Ok a, d') => k a d'
    | (Raise e, d') => (Raise e, d')
    end.

Definition lift {A} (r : result A) : M A := fun d => (r, d).

Declare Scope py_scope.
Delimit Scope py_scope with py.
Notation "x <- m ;; k" := (bind m (fun x => k))
  (at level 100, m at next level, right associativity) : py_scope.
Notation "m ;;; k" := (bind m (fun _ => k))
  (at level 100, right associativity) : py_scope.
Local Open Scope py_scope.

(** [data[k]] *)
Definition getitem (k : string) : M value :=
  fun d =>
    match d !! k with
    | Some v => (Ok v, d)
    | None => (Raise (KeyError k), d)
    end.

(** [data[k] = v] *)
Definition setitem (k : string) (v : value) : M unit :=
  fun d => (Ok tt, <[k := v]> d).

(** ** calc_values *)

(** [can_calc value using]:
    [(value in values) and (value not in data) and using.issubset(data)] *)
Definition can_calc (values : gset string) (value : string) (using_ : gset string) : M bool :=
  fun data =>
    (Ok (bool_decide (value ∈ values)
         && bool_decide (data !! value = None)
         && bool_decide (using_ ⊆ dom data)), data).

(** calculate cycle capacity from voltage and cycle charge *)
Definition calc_cycle_cap (values : gset string) : M unit :=
  b <- can_calc values ATTR_CYCLE_CAP {[ATTR_VOLTAGE; ATTR_CYCLE_CHRG]} ;;
  if b : bool then
    v <- getitem ATTR_VOLTAGE ;;
    c <- getitem ATTR_CYCLE_CHRG ;;
    r <- lift (mul v c) ;;
    setitem ATTR_CYCLE_CAP r
  else ret tt.

(** calculate current power from voltage and current *)
Definition calc_power (values : gset string) : M unit :=
  b <- can_calc values ATTR_POWER {[ATTR_VOLTAGE; ATTR_CURRENT]} ;;
  if b : bool then
    v <- getitem ATTR_VOLTAGE ;;
    i <- getitem ATTR_CURRENT ;;
    r <- lift (mul v i) ;;
    setitem ATTR_POWER r
  else ret tt.

(** calculate charge indicator from current *)
Definition calc_charging (values : gset string) : M unit :=
  b <- can_calc values ATTR_BATTERY_CHARGING {[ATTR_CURRENT]} ;;
  if b : bool then
    i <- getitem ATTR_CURRENT ;;
    setitem ATTR_BATTERY_CHARGING (Bool (gt_zero i))
  else ret tt.

(** [int(cycle_charge / abs(current) * _HRS_TO_SECS)] *)
Definition runtime_value (c i : value) : result value :=
  rbind (truediv c (abs i)) (fun q =>
  rbind (mul q _HRS_TO_SECS) (fun s =>
  int_ s)).

(** calculate runtime from current and cycle charge *)
Definition calc_runtime (values : gset string) : M unit :=
  b <- can_calc values ATTR_RUNTIME {[ATTR_CURRENT; ATTR_CYCLE_CHRG]} ;;
  if b : bool then
    i <- getitem ATTR_CURRENT ;;
    if lt_zero i then
      c <- getitem ATTR_CYCLE_CHRG ;;
      i' <- getitem ATTR_CURRENT ;;
      r <- lift (runtime_value c i') ;;
      setitem ATTR_RUNTIME r
    else ret tt
  else ret tt.

(** Calculate missing BMS values from existing ones.  [data] is the state of
    the monad, [values] the names to add; the four rules run in source order
    and the first exception ends the call. *)
Definition calc_values (values : gset string) : M unit :=
  calc_cycle_cap values ;;;
  calc_power values ;;;
  calc_charging values ;;;
  calc_runtime values.

(** The four derivations in source order, and their sequential execution. *)
Definition rules (values : gset string) : list (M unit) :=
  [calc_cycle_cap values; calc_power values; calc_charging values; calc_runtime values].

Fixpoint run_all (l : list (M unit)) : M unit :=
  match l with
  | [] => ret tt
  | r :: l' => r ;;; run_all l'
  end.

(** The same four derivations applied in the opposite order. *)
Definition rules_reversed (values : gset string) : list (M unit) :=
  [calc_runtime values; calc_charging values; calc_power values; calc_cycle_cap values].

(** ** supported *)

Section Supported.

(** A matcher descriptor and a discovery record are opaque to [BaseBMS];
    [ble_device_matches m info] stands for the host's
    [ble_device_matches] applied to the [BluetoothMatcherOptional] built
    from the descriptor [m] and to [info]. *)
Variables matcher discovery_info : Type.
Variable ble_device_matches : matcher -> discovery_info -> bool.

(** The [for] loop with its early [return True]. *)
Fixpoint supported (matcher_dict_list : list matcher) (info : discovery_info) : bool :=
  match matcher_dict_list with
  | [] => false
  | matcher_dict :: rest =>
      if ble_device_matches matcher_dict info then true
      else supported rest info
  end.

End Supported.

(** ** device_id *)

(** [" ".join(cls.device_info().values())].  [device_info] is the abstract
    static method's result, a [dict[str, str]]; it is given as the list of its
    items in insertion order, the order in which [values()] yields them. *)
Definition device_id (device_info : list (string * string)) : string :=
  String.concat " " (map snd device_info).

(** ** Normal form of a derivation

    Every rule of [calc_values] reads at most the three measured inputs and
    writes at most its own target.  [step] is that shape; the lemmas
    [calc_*_step] show each rule of the source is an instance of it. *)

Record inputs : Type := Inputs {
  in_voltage : option value;
  in_current : option value;
  in_cycle_chrg : option value
}.

Definition view (d : data_t) : inputs :=
  {| in_voltage := d !! ATTR_VOLTAGE;
     in_current := d !! ATTR_CURRENT;
     in_cycle_chrg := d !! ATTR_CYCLE_CHRG |}.

Definition derive_cycle_cap (x : inputs) : result (option value) :=
  match in_voltage x, in_cycle_chrg x with
  | Some v, Some c => rbind (mul v c) (fun r => Ok (Some r))
  | _, _ => Ok None
  end.

Definition derive_power (x : inputs) : result (option value) :=
  match in_voltage x, in_current x with
  | Some v, Some i => rbind (mul v i) (fun r => Ok (Some r))
  | _, _ => Ok None
  end.

Definition derive_charging (x : inputs) : result (option value) :=
  match in_current x with
  | Some i => Ok (Some (Bool (gt_zero i)))
  | None => Ok None
  end.

Definition derive_runtime (x : inputs) : result (option value) :=
  match in_current x, in_cycle_chrg x with
  | Some i, Some c =>
      if lt_zero i then rbind (runtime_value c i) (fun r => Ok (Some r))
      else Ok None
  | _, _ => Ok None
  end.

(** What a rule with target [t] decides on [d]: a value to store, nothing,
    or an exception.  The first two conjuncts of [can_calc] are the gate; the
    third is part of [f]. *)
Definition outcome (values : gset string) (t : string)
    (f : inputs -> result (option value)) (d : data_t) : result (option value) :=
  if bool_decide (t ∈ values) && bool_decide (d !! t = None) then f (view d)
  else Ok None.

Definition put (t : string) (o : option value) (d : data_t) : data_t :=
  match o with
  | Some v => <[t := v]> d
  | None => d
  end.

Definition step (values : gset string) (t : string)
    (f : inputs -> result (option value)) : M unit :=
  fun d =>
    match outcome values t f d with
    | Ok o => (Ok tt, put t o d)
    | Raise e => (Raise e, d)
    end.

(** The keys a derivation may write. *)
Definition is_target (k : string) : Prop :=
  k = ATTR_CYCLE_CAP \/ k = ATTR_POWER \/ k = ATTR_BATTERY_CHARGING \/ k = ATTR_RUNTIME.

(** The rules of the source as (target, derivation) pairs, and the
    sequential execution of such a list. *)
Definition exec (values : gset string)
    (tbl : list (string * (inputs -> result (option value)))) : M unit :=
  run_all (map (fun tf => step values (fst tf) (snd tf)) tbl).

Definition table : list (string * (inputs -> result (option value))) :=
  [(ATTR_CYCLE_CAP, derive_cycle_cap); (ATTR_POWER, derive_power);
   (ATTR_BATTERY_CHARGING, derive_charging); (ATTR_RUNTIME, derive_runtime)].

(** ** Sample measurement sets *)

Definition data_cap : data_t :=
  <[ATTR_VOLTAGE := flit 12]> (<[ATTR_CYCLE_CHRG := flit 10]> ∅).
Definition data_power : data_t :=
  <[ATTR_VOLTAGE := flit 12]> (<[ATTR_CURRENT := flit 2]> ∅).
Definition data_discharging : data_t :=
  <[ATTR_CURRENT := flit (-5)]> (<[ATTR_CYCLE_CHRG := flit 10]> ∅).
Definition data_charging : data_t :=
  <[ATTR_CURRENT := flit 5]> (<[ATTR_CYCLE_CHRG := flit 10]> ∅).
Definition data_idle : data_t :=
  <[ATTR_CURRENT := Int 0]> (<[ATTR_CYCLE_CHRG := flit 10]> ∅).

(** Measurement sets on which the arithmetic leaves the float range:
    an integer voltage of [10**400], and a cycle charge of [1e308]. *)
Definition data_huge_cap : data_t :=
  <[ATTR_VOLTAGE := Int (10 ^ 400)]> (<[ATTR_CYCLE_CHRG := flit 1]> ∅).
Definition data_huge_power : data_t :=
  <[ATTR_VOLTAGE := Int (10 ^ 400)]> (<[ATTR_CURRENT := flit 2]> ∅).
Definition data_overflow : data_t :=
  <[ATTR_CURRENT := flit (-1)]> (<[ATTR_CYCLE_CHRG := flit (10 ^ 308)]> ∅).
Definition data_order : data_t :=
  <[ATTR_VOLTAGE := flit 12]> data_overflow.

(** ** Predicates of the proofs *)

(** [d'] is [d] with some requested target keys added. *)
Definition extends (values : gset string) (d d' : data_t) : Prop :=
  forall k, d' !! k = d !! k \/ (d !! k = None /\ k ∈ values /\ is_target k).

(** A float that is neither a zero nor a NaN. *)
Definition is_nonzero_number (f : spec_float) : Prop :=
  match f with
  | S754_finite _ _ _ | S754_infinity _ => True
  | S754_zero _ | S754_nan => False
  end.

(** The exceptions of the arithmetic: an integer too large for a float, and
    [int()] of an infinity or a NaN. *)
Definition arith_exn (e : exn) : Prop := e = OverflowError \/ e = ValueError.

(** A rule of the source: one of the steps of the table, pointwise. *)
Definition is_rule (values : gset string) (r : M unit) : Prop :=
  exists tf, In tf table /\ forall d, r d = step values (fst tf) (snd tf) d.

(** The three measured inputs are floats where present. *)
Definition float_inputs (d : data_t) : Prop :=
  forall k v,
    k = ATTR_VOLTAGE \/ k = ATTR_CURRENT \/ k = ATTR_CYCLE_CHRG ->
    d !! k = Some v -> exists f, v = Float f.

(** ** Basic facts *)

Lemma subseteq_dom_pair (d : data_t) a b :
  bool_decide (({[a; b]} : gset string) ⊆ dom d)
  = bool_decide (is_Some (d !! a)) && bool_decide (is_Some (d !! b)).
Proof.
  apply eq_true_iff_eq.
  rewrite andb_true_iff, !bool_decide_eq_true.
  split.
  - intros Hsub. split; apply (elem_of_dom (D := gset string)); set_solver.
  - intros [Ha Hb] k Hk.
    apply elem_of_union in Hk as [Hk|Hk]; apply elem_of_singleton in Hk; subst k;
      by apply (elem_of_dom (D := gset string)).
Qed.

Lemma subseteq_dom_single (d : data_t) a :
  bool_decide (({[a]} : gset string) ⊆ dom d) = bool_decide (is_Some (d !! a)).
Proof.
  apply eq_true_iff_eq.
  rewrite !bool_decide_eq_true.
  split.
  - intros Hsub. apply (elem_of_dom (D := gset string)). set_solver.
  - intros Ha k Hk. apply elem_of_singleton in Hk. subst k.
    by apply (elem_of_dom (D := gset string)).
Qed.

Lemma is_Some_decide_Some {A} (v : A) : bool_decide (is_Some (Some v)) = true.
Proof. apply bool_decide_eq_true. eauto. Qed.

Lemma is_Some_decide_None {A} : bool_decide (is_Some (@None A)) = false.
Proof. apply bool_decide_eq_false. intros [? ?]; discriminate. Qed.

(** Evaluate a rule of the source on a dictionary whose three input lookups
    have been named by [destruct ... eqn:]. *)
Ltac eval_rule :=
  cbv beta iota delta [bind can_calc getitem lift setitem ret andb];
  repeat match goal with
         | H : ?d !! ?k = _ |- context [?d !! ?k] => rewrite H
         end;
  cbv beta iota delta [andb rbind].

Lemma calc_cycle_cap_step values d :
  calc_cycle_cap values d = step values ATTR_CYCLE_CAP derive_cycle_cap d.
Proof.
  unfold calc_cycle_cap, step, outcome, put, derive_cycle_cap, view, in_voltage, in_cycle_chrg.
  unfold bind at 1, can_calc. rewrite subseteq_dom_pair.
  destruct (d !! ATTR_VOLTAGE) as [v|] eqn:Hv;
    destruct (d !! ATTR_CYCLE_CHRG) as [c|] eqn:Hc;
    rewrite ?is_Some_decide_Some, ?is_Some_decide_None;
    destruct (bool_decide (ATTR_CYCLE_CAP ∈ values));
    destruct (bool_decide (d !! ATTR_CYCLE_CAP = None));
    eval_rule; try reflexivity.
  destruct (mul v c); reflexivity.
Qed.

Lemma calc_power_step values d :
  calc_power values d = step values ATTR_POWER derive_power d.
Proof.
  unfold calc_power, step, outcome, put, derive_power, view, in_voltage, in_current.
  unfold bind at 1, can_calc. rewrite subseteq_dom_pair.
  destruct (d !! ATTR_VOLTAGE) as [v|] eqn:Hv;
    destruct (d !! ATTR_CURRENT) as [i|] eqn:Hi;
    rewrite ?is_Some_decide_Some, ?is_Some_decide_None;
    destruct (bool_decide (ATTR_POWER ∈ values));
    destruct (bool_decide (d !! ATTR_POWER = None));
    eval_rule; try reflexivity.
  destruct (mul v i); reflexivity.
Qed.

Lemma calc_charging_step values d :
  calc_charging values d = step values ATTR_BATTERY_CHARGING derive_charging d.
Proof.
  unfold calc_charging, step, outcome, put, derive_charging, view, in_current.
  unfold bind at 1, can_calc. rewrite subseteq_dom_single.
  destruct (d !! ATTR_CURRENT) as [i|] eqn:Hi;
    rewrite ?is_Some_decide_Some, ?is_Some_decide_None;
    destruct (bool_decide (ATTR_BATTERY_CHARGING ∈ values));
    destruct (bool_decide (d !! ATTR_BATTERY_CHARGING = None));
    eval_rule; reflexivity.
Qed.

Lemma calc_runtime_step values d :
  calc_runtime values d = step values ATTR_RUNTIME derive_runtime d.
Proof.
  unfold calc_runtime, step, outcome, put, derive_runtime, view, in_current, in_cycle_chrg.
  unfold bind at 1, can_calc. rewrite subseteq_dom_pair.
  destruct (d !! ATTR_CURRENT) as [i|] eqn:Hi;
    destruct (d !! ATTR_CYCLE_CHRG) as [c|] eqn:Hc;
    rewrite ?is_Some_decide_Some, ?is_Some_decide_None;
    destruct (bool_decide (ATTR_RUNTIME ∈ values));
    destruct (bool_decide (d !! ATTR_RUNTIME = None));
    eval_rule; try reflexivity.
  destruct (lt_zero i); eval_rule; [|reflexivity].
  destruct (runtime_value c i); reflexivity.
Qed.

Lemma calc_values_exec values d : calc_values values d = exec values table d.
Proof.
  unfold calc_values, exec, table, map, run_all, bind, fst, snd.
  rewrite calc_cycle_cap_step.
  destruct (step values ATTR_CYCLE_CAP derive_cycle_cap d) as [[[]|e] d1]; [|reflexivity].
  rewrite calc_power_step.
  destruct (step values ATTR_POWER derive_power d1) as [[[]|e] d2]; [|reflexivity].
  rewrite calc_charging_step.
  destruct (step values ATTR_BATTERY_CHARGING derive_charging d2) as [[[]|e] d3]; [|reflexivity].
  rewrite calc_runtime_step.
  destruct (step values ATTR_RUNTIME derive_runtime d3) as [[[]|e] d4]; reflexivity.
Qed.

(** ** Keys *)

Lemma target_not_input k :
  is_target k -> k <> ATTR_VOLTAGE /\ k <> ATTR_CURRENT /\ k <> ATTR_CYCLE_CHRG.
Proof. intros [ -> | [ -> | [ -> | -> ] ] ]; repeat split; discriminate. Qed.

Lemma targets_NoDup : NoDup (map fst table).
Proof.
  unfold table, map, fst.
  repeat (apply NoDup_cons; split;
          [rewrite ?elem_of_cons, elem_of_nil; intros H; repeat destruct H as [H|H]; discriminate + done|]).
  apply NoDup_nil_2.
Qed.

Lemma table_targets tf : In tf table -> is_target (fst tf).
Proof.
  unfold table, is_target.
  intros [ <- | [ <- | [ <- | [ <- | [] ] ] ] ]; cbn [fst]; auto.
Qed.

Lemma view_put t o d : is_target t -> view (put t o d) = view d.
Proof.
  intros Ht. destruct (target_not_input t Ht) as (Hv & Hi & Hc).
  destruct o as [v|]; [|reflexivity].
  unfold view, put. rewrite !lookup_insert_ne by done. reflexivity.
Qed.

(** ** One step *)

Lemma put_lookup_ne t o d k : k <> t -> put t o d !! k = d !! k.
Proof. intros Hk. destruct o as [v|]; [|reflexivity]. apply lookup_insert_ne. congruence. Qed.

Lemma put_commute t1 o1 t2 o2 (d : data_t) :
  t1 <> t2 -> put t1 o1 (put t2 o2 d) = put t2 o2 (put t1 o1 d).
Proof.
  intros Hne. destruct o1 as [v1|], o2 as [v2|]; try reflexivity.
  apply insert_insert_ne. congruence.
Qed.

Lemma outcome_open values t f d :
  t ∈ values -> d !! t = None -> outcome values t f d = f (view d).
Proof.
  intros Hreq Habs. unfold outcome.
  rewrite (bool_decide_eq_true_2 _ Hreq), (bool_decide_eq_true_2 _ Habs). reflexivity.
Qed.

Lemma outcome_present values t f d v :
  d !! t = Some v -> outcome values t f d = Ok None.
Proof.
  intros Hv. unfold outcome.
  rewrite (bool_decide_eq_false_2 (d !! t = None)) by congruence.
  rewrite andb_false_r. reflexivity.
Qed.

Lemma outcome_unrequested values t f d :
  t ∉ values -> outcome values t f d = Ok None.
Proof.
  intros Hreq. unfold outcome. rewrite (bool_decide_eq_false_2 _ Hreq). reflexivity.
Qed.

Lemma outcome_Some values t f d v :
  outcome values t f d = Ok (Some v) ->
  t ∈ values /\ d !! t = None /\ f (view d) = Ok (Some v).
Proof.
  unfold outcome. intros H.
  destruct (bool_decide (t ∈ values)) eqn:Hreq; [|discriminate].
  destruct (bool_decide (d !! t = None)) eqn:Habs; [|discriminate].
  apply bool_decide_eq_true in Hreq, Habs. auto.
Qed.

Lemma outcome_Raise values t f d e :
  outcome values t f d = Raise e ->
  t ∈ values /\ d !! t = None /\ f (view d) = Raise e.
Proof.
  unfold outcome. intros H.
  destruct (bool_decide (t ∈ values)) eqn:Hreq; [|discriminate].
  destruct (bool_decide (d !! t = None)) eqn:Habs; [|discriminate].
  apply bool_decide_eq_true in Hreq, Habs. auto.
Qed.

(** A rule looks at nothing but the inputs and its own target. *)
Lemma outcome_ext values t f d d' :
  view d' = view d -> d' !! t = d !! t ->
  outcome values t f d' = outcome values t f d.
Proof. intros Hview Ht. unfold outcome. rewrite Hview, Ht. reflexivity. Qed.

Lemma outcome_put values t1 f1 t2 o2 d :
  is_target t2 -> t1 <> t2 ->
  outcome values t1 f1 (put t2 o2 d) = outcome values t1 f1 d.
Proof.
  intros Ht Hne. apply outcome_ext; [by apply view_put | by apply put_lookup_ne].
Qed.

Lemma step_Ok values t f d o :
  outcome values t f d = Ok o -> step values t f d = (Ok tt, put t o d).
Proof. intros H. unfold step. rewrite H. reflexivity. Qed.

Lemma step_Raise values t f d e :
  outcome values t f d = Raise e -> step values t f d = (Raise e, d).
Proof. intros H. unfold step. rewrite H. reflexivity. Qed.

(** ** Sequences of steps *)

Lemma exec_nil values d : exec values [] d = (Ok tt, d).
Proof. reflexivity. Qed.

Lemma exec_cons values t f tbl d :
  exec values ((t, f) :: tbl) d =
  match outcome values t f d with
  | Ok o => exec values tbl (put t o d)
  | Raise e => (Raise e, d)
  end.
Proof.
  unfold exec. cbn [map run_all fst snd]. unfold bind at 1, step.
  destruct (outcome values t f d); reflexivity.
Qed.

Lemma exec_app values tbl1 tbl2 :
  forall d,
    exec values (tbl1 ++ tbl2) d =
    match exec values tbl1 d with
    | (Ok _, d1) => exec values tbl2 d1
    | (Raise e, d1) => (Raise e, d1)
    end.
Proof.
  induction tbl1 as [|[t f] tbl1 IH]; intros d; [reflexivity|].
  cbn [app]. rewrite !exec_cons.
  destruct (outcome values t f d); [apply IH | reflexivity].
Qed.

Lemma extends_refl values d : extends values d d.
Proof. intros k. auto. Qed.

Lemma extends_trans values d1 d2 d3 :
  extends values d1 d2 -> extends values d2 d3 -> extends values d1 d3.
Proof.
  intros H12 H23 k. destruct (H12 k) as [E12|?]; [|auto].
  destruct (H23 k) as [E23|(Hn & Hreq & Ht)].
  - left. congruence.
  - right. rewrite <- E12. auto.
Qed.

Lemma put_extends values t f d o :
  is_target t -> outcome values t f d = Ok o -> extends values d (put t o d).
Proof.
  intros Ht Ho k. destruct o as [v|]; [|by left].
  apply outcome_Some in Ho as (Hreq & Habs & _).
  destruct (decide (k = t)) as [->|Hne].
  - right. auto.
  - left. by apply put_lookup_ne.
Qed.

Lemma exec_extends values tbl :
  Forall (fun tf => is_target (fst tf)) tbl ->
  forall d, extends values d (snd (exec values tbl d)).
Proof.
  induction 1 as [|[t f] tbl Ht _ IH]; intros d.
  - apply extends_refl.
  - rewrite exec_cons. destruct (outcome values t f d) as [o|e] eqn:Ho.
    + eapply extends_trans; [by eapply put_extends | apply IH].
    + apply extends_refl.
Qed.

Lemma extends_view values d d' : extends values d d' -> view d' = view d.
Proof.
  intros H. unfold view.
  destruct (H ATTR_VOLTAGE) as [->|(_ & _ & Hv)];
    [|destruct (target_not_input _ Hv) as (? & ? & ?); congruence].
  destruct (H ATTR_CURRENT) as [->|(_ & _ & Hi)];
    [|destruct (target_not_input _ Hi) as (? & ? & ?); congruence].
  destruct (H ATTR_CYCLE_CHRG) as [->|(_ & _ & Hc)];
    [|destruct (target_not_input _ Hc) as (? & ? & ?); congruence].
  reflexivity.
Qed.

Lemma extends_Some values d d' k v :
  extends values d d' -> d !! k = Some v -> d' !! k = Some v.
Proof. intros H Hk. destruct (H k) as [E|(Hn & _)]; congruence. Qed.

Lemma exec_lookup_notin values tbl :
  forall d k, ~ In k (map fst tbl) -> snd (exec values tbl d) !! k = d !! k.
Proof.
  induction tbl as [|[t f] tbl IH]; intros d k Hk; [reflexivity|].
  cbn [map fst In] in Hk. rewrite exec_cons.
  destruct (outcome values t f d) as [o|e]; [|reflexivity].
  rewrite IH by tauto. apply put_lookup_ne. intros ->. tauto.
Qed.

(** Running the same rules again changes nothing: a target that was added
    is now present, and a rule that added nothing sees the same inputs. *)
Lemma exec_idempotent values tbl :
  Forall (fun tf => is_target (fst tf)) tbl -> NoDup (map fst tbl) ->
  forall d, exec values tbl (snd (exec values tbl d)) = exec values tbl d.
Proof.
  induction 1 as [|[t f] tbl Ht Htbl IH]; intros Hnd d; [reflexivity|].
  cbn [map fst] in Hnd. inversion Hnd as [|? ? Hnotin Hnd']; subst.
  rewrite list_elem_of_In in Hnotin.
  rewrite (exec_cons values t f tbl d).
  destruct (outcome values t f d) as [o|e] eqn:Ho.
  - rewrite exec_cons.
    assert (outcome values t f (snd (exec values tbl (put t o d))) = Ok None) as ->.
    { destruct o as [v|].
      - apply outcome_present with v.
        rewrite exec_lookup_notin by assumption. apply lookup_insert_eq.
      - rewrite <- Ho. apply outcome_ext.
        + apply (extends_view values). by apply exec_extends.
        + by apply exec_lookup_notin. }
    cbn [put]. by apply IH.
  - cbn [snd]. rewrite exec_cons, Ho. reflexivity.
Qed.

Lemma table_all_targets : Forall (fun tf => is_target (fst tf)) table.
Proof. apply Forall_forall. intros tf Hin. apply table_targets. by apply list_elem_of_In. Qed.

Lemma calc_values_extends values data :
  extends values data (snd (calc_values values data)).
Proof. rewrite calc_values_exec. apply exec_extends, table_all_targets. Qed.

(** ** Invariants of calc_values *)

(** C1: calc_values never alters the value bound to a key that is already
    present: every key present before the call maps to the same value after
    it, whether the call returns or is left by an exception. *)
Theorem calc_values_keeps_present (values : gset string) (data : data_t) k v :
  data !! k = Some v ->
  snd (calc_values values data) !! k = Some v.
Proof. apply extends_Some with values, calc_values_extends. Qed.

Lemma calc_values_keeps_present_witness :
  data_cap !! ATTR_VOLTAGE = Some (flit 12) /\
  snd (calc_values {[ATTR_CYCLE_CAP]} data_cap) !! ATTR_VOLTAGE = Some (flit 12).
Proof.
  split; [reflexivity|].
  apply (calc_values_keeps_present {[ATTR_CYCLE_CAP]} data_cap ATTR_VOLTAGE (flit 12)).
  reflexivity.
Defined.

(** C2: a key that is present after calc_values and was absent before it is
    a member of the requested set; no key outside the requested set is ever
    added. *)
Theorem calc_values_adds_only_requested (values : gset string) (data : data_t) k :
  data !! k = None ->
  is_Some (snd (calc_values values data) !! k) ->
  k ∈ values.
Proof.
  intros Habs [v Hv].
  destruct (calc_values_extends values data k) as [E|(_ & Hreq & _)]; [|exact Hreq].
  congruence.
Qed.

Lemma calc_values_adds_only_requested_witness :
  data_cap !! ATTR_CYCLE_CAP = None /\
  is_Some (snd (calc_values {[ATTR_CYCLE_CAP]} data_cap) !! ATTR_CYCLE_CAP) /\
  ATTR_CYCLE_CAP ∈ ({[ATTR_CYCLE_CAP]} : gset string).
Proof.
  assert (Hb : data_cap !! ATTR_CYCLE_CAP = None) by reflexivity.
  assert (Ha : is_Some (snd (calc_values {[ATTR_CYCLE_CAP]} data_cap) !! ATTR_CYCLE_CAP)).
  { exists (flit 120). vm_compute. reflexivity. }
  split; [exact Hb|]. split; [exact Ha|].
  exact (calc_values_adds_only_requested {[ATTR_CYCLE_CAP]} data_cap ATTR_CYCLE_CAP Hb Ha).
Defined.

(** C9: calc_values is idempotent.  A second call with the same requested set
    on the mapping the first call left behind leaves that mapping unchanged
    (and ends the way the first call ended). *)
Theorem calc_values_idempotent (values : gset string) (data : data_t) :
  let data' := snd (calc_values values data) in
  snd (calc_values values data') = data' /\
  fst (calc_values values data') = fst (calc_values values data).
Proof.
  cbv zeta. rewrite !calc_values_exec.
  rewrite exec_idempotent by (apply table_all_targets || apply targets_NoDup).
  split; reflexivity.
Qed.

(** ** Device matching *)

(** C7: supported returns true if and only if at least one matcher
    descriptor of the list matches the discovery record; in particular it
    returns false exactly when none matches. *)
Theorem supported_iff_some_matcher (matcher discovery_info : Type)
    (ble_device_matches : matcher -> discovery_info -> bool)
    (matcher_dict_list : list matcher) (info : discovery_info) :
  (supported matcher discovery_info ble_device_matches matcher_dict_list info = true <->
   exists m, In m matcher_dict_list /\ ble_device_matches m info = true) /\
  (supported matcher discovery_info ble_device_matches matcher_dict_list info = false <->
   forall m, In m matcher_dict_list -> ble_device_matches m info = false).
Proof.
  induction matcher_dict_list as [|m0 rest [IHt IHf]]; cbn [supported In].
  - split; split; try discriminate; try tauto.
    intros (m & [] & _).
  - destruct (ble_device_matches m0 info) eqn:Hm0.
    + split; split.
      * intros _. exists m0. auto.
      * reflexivity.
      * discriminate.
      * intros Hall. specialize (Hall m0 (or_introl eq_refl)). congruence.
    + split.
      * rewrite IHt. split.
        -- intros (m & Hin & Hm). eauto.
        -- intros (m & [<-|Hin] & Hm); [congruence | eauto].
      * rewrite IHf. split.
        -- intros Hall m [<-|Hin]; auto.
        -- intros Hall m Hin. auto.
Qed.

(** ** Arithmetic facts *)

(** *** The float nearest to a non-zero integer is not zero *)

Lemma shr_1_digits mrs :
  0 <= shr_m mrs ->
  0 <= shr_m (shr_1 mrs) /\
  Zdigits2 (shr_m (shr_1 mrs)) = Z.max 0 (Zdigits2 (shr_m mrs) - 1).
Proof.
  destruct mrs as [m r s]. cbn [shr_m]. intros Hm.
  destruct m as [|[p|p|]|p]; cbn [shr_1 shr_m Zdigits2 digits2_pos]; try lia.
Qed.

Lemma iter_shr_1_digits n :
  forall mrs, 0 <= shr_m mrs ->
    0 <= shr_m (SpecFloat.iter_pos shr_1 n mrs) /\
    Zdigits2 (shr_m (SpecFloat.iter_pos shr_1 n mrs)) = Z.max 0 (Zdigits2 (shr_m mrs) - Zpos n).
Proof.
  induction n as [n IH|n IH|]; intros mrs Hm; cbn [SpecFloat.iter_pos].
  - destruct (shr_1_digits mrs Hm) as [H0 E0].
    destruct (IH _ H0) as [H1 E1]. destruct (IH _ H1) as [H2 E2].
    split; [exact H2|]. rewrite E2, E1, E0. lia.
  - destruct (IH _ Hm) as [H1 E1]. destruct (IH _ H1) as [H2 E2].
    split; [exact H2|]. rewrite E2, E1. lia.
  - apply shr_1_digits, Hm.
Qed.

Lemma Zdigits2_pos_inv m : 0 <= m -> 0 < Zdigits2 m -> exists p, m = Zpos p.
Proof. destruct m as [|p|p]; cbn; intros; try lia. eauto. Qed.

Lemma shr_record_of_loc_m m l : shr_m (shr_record_of_loc m l) = m.
Proof. destruct l as [|[]]; reflexivity. Qed.

Lemma shr_fexp_positive p e l :
  -1074 <= e ->
  exists p', shr_m (fst (shr_fexp prec emax (Zpos p) e l)) = Zpos p' /\
             -1074 <= snd (shr_fexp prec emax (Zpos p) e l).
Proof.
  intros He. unfold shr_fexp, shr.
  pose proof (Pos2Z.is_pos (digits2_pos p)) as Hd.
  assert (Hn : fexp prec emax (Zdigits2 (Zpos p) + e) - e < Zpos (digits2_pos p)).
  { unfold fexp, emin, prec, emax. cbn [Zdigits2]. lia. }
  destruct (fexp prec emax (Zdigits2 (Zpos p) + e) - e) as [|n|n] eqn:En; cbn [fst snd].
  - rewrite shr_record_of_loc_m. eauto.
  - destruct (iter_shr_1_digits n (shr_record_of_loc (Zpos p) l)) as [H0 E0].
    { rewrite shr_record_of_loc_m. lia. }
    rewrite shr_record_of_loc_m in E0. cbn [Zdigits2] in E0.
    destruct (Zdigits2_pos_inv _ H0) as [p' Hp']; [lia|].
    exists p'. split; [exact Hp' | lia].
  - rewrite shr_record_of_loc_m. eauto.
Qed.

Lemma round_nearest_even_positive p l :
  exists q, round_nearest_even (Zpos p) l = Zpos q.
Proof.
  destruct l as [|[]]; cbn [round_nearest_even];
    try destruct (Z.even (Zpos p)); cbn [Z.add]; eauto.
Qed.

Lemma binary_round_aux_nonzero sx p e lx :
  -1074 <= e -> is_nonzero_number (binary_round_aux prec emax sx (Zpos p) e lx).
Proof.
  intros He. unfold binary_round_aux.
  destruct (shr_fexp_positive p e lx He) as (p1 & Hp1 & He1).
  destruct (shr_fexp prec emax (Zpos p) e lx) as [mrs1 e1]. cbn [fst snd] in Hp1, He1.
  rewrite Hp1.
  destruct (round_nearest_even_positive p1 (loc_of_shr_record mrs1)) as [q ->].
  destruct (shr_fexp_positive q e1 loc_Exact He1) as (p2 & Hp2 & _).
  destruct (shr_fexp prec emax (Zpos q) e1 loc_Exact) as [mrs2 e2]. cbn [fst] in Hp2.
  rewrite Hp2. destruct (e2 <=? emax - prec); exact I.
Qed.

Lemma binary_round_nonzero sx p :
  is_nonzero_number (binary_round prec emax sx p 0).
Proof.
  unfold binary_round.
  destruct (shl_align p 0 (fexp prec emax (Zpos (digits2_pos p) + 0))) as [mz ez] eqn:Hs.
  apply binary_round_aux_nonzero.
  unfold shl_align in Hs.
  destruct (fexp prec emax (Zpos (digits2_pos p) + 0) - 0) eqn:Hf;
    inversion Hs; subst; try lia.
  unfold fexp, emin, prec, emax. lia.
Qed.

Lemma float_of_int_nonzero z f :
  z <> 0 -> float_of_int z = Ok f -> SFeqb f fzero = false.
Proof.
  intros Hz. unfold float_of_int, binary_normalize.
  destruct z as [|p|p]; [congruence| |].
  - pose proof (binary_round_nonzero false p) as Hnz.
    destruct (binary_round prec emax false p 0) as [s|s| |s m e];
      cbn in Hnz; try contradiction; intros [= <-]; destruct s; reflexivity.
  - pose proof (binary_round_nonzero true p) as Hnz.
    destruct (binary_round prec emax true p 0) as [s|s| |s m e];
      cbn in Hnz; try contradiction; intros [= <-]; destruct s; reflexivity.
Qed.

(** *** Which exceptions the operators raise *)

Lemma float_of_int_Raise z e : float_of_int z = Raise e -> e = OverflowError.
Proof.
  unfold float_of_int.
  destruct (binary_normalize prec emax z 0 false); intros [=]; congruence.
Qed.

Lemma to_float_Raise v e : to_float v = Raise e -> e = OverflowError.
Proof. destruct v; cbn [to_float]; [apply float_of_int_Raise..|discriminate]. Qed.

Lemma float_mul_Raise v w e :
  rbind (to_float v) (fun a =>
  rbind (to_float w) (fun b => Ok (Float (SFmul prec emax a b)))) = Raise e ->
  e = OverflowError.
Proof.
  destruct (to_float v) as [x|ex] eqn:Hx; cbn [rbind].
  - destruct (to_float w) as [y|ey] eqn:Hy; cbn [rbind]; [discriminate|].
    intros [= <-]. by apply to_float_Raise in Hy.
  - intros [= <-]. by apply to_float_Raise in Hx.
Qed.

Lemma mul_Raise v w e : mul v w = Raise e -> e = OverflowError.
Proof.
  destruct v as [a|a|a], w as [b|b|b]; cbn [mul]; try discriminate;
    apply float_mul_Raise.
Qed.

Lemma int_Raise v e : int_ v = Raise e -> e = OverflowError \/ e = ValueError.
Proof.
  destruct v as [b|z|[s|s| |s m x]]; cbn [int_]; intros [=]; auto.
Qed.

Lemma negative_float f :
  SFltb f fzero = true ->
  (f = S754_infinity true \/ exists m e, f = S754_finite true m e).
Proof.
  unfold SFltb, fzero. destruct f as [s|[]| |[] m e]; cbn; try discriminate; eauto.
Qed.

(** Under the guard [current < 0] the divisor [abs(current)] is strictly
    positive. *)
Lemma lt_zero_abs i : lt_zero i = true -> gt_zero (abs i) = true.
Proof.
  destruct i as [b|z|f]; cbn [lt_zero abs gt_zero].
  - destruct b; discriminate.
  - intros H. apply Z.ltb_lt in H. apply Z.ltb_lt. lia.
  - intros H. destruct (negative_float f H) as [->|(m & e & ->)]; reflexivity.
Qed.

Lemma int_truediv_Raise a b e :
  b <> 0 -> int_truediv a b = Raise e -> e = OverflowError.
Proof.
  intros Hb. unfold int_truediv.
  destruct (Z.eqb_spec b 0) as [|_]; [contradiction|].
  destruct (SFdiv prec emax (sf_of_Z a) (sf_of_Z b)); intros [=]; congruence.
Qed.

Lemma float_truediv_Raise a b e :
  SFeqb b fzero = false -> float_truediv a b = Raise e -> False.
Proof. intros Hb. unfold float_truediv. rewrite Hb. discriminate. Qed.

Lemma truediv_abs_Raise c i e :
  lt_zero i = true -> truediv c (abs i) = Raise e -> e = OverflowError.
Proof.
  intros Hlt. destruct i as [b|z|f]; cbn [lt_zero abs] in *.
  - destruct b; discriminate.
  - apply Z.ltb_lt in Hlt. assert (Hz : Z.abs z <> 0) by lia.
    destruct c as [a|a|a]; cbn [truediv to_float rbind];
      [by apply int_truediv_Raise..|].
    destruct (float_of_int (Z.abs z)) as [y|ey] eqn:Hy; cbn [rbind].
    + intros H. exfalso. eapply float_truediv_Raise; [|exact H].
      by apply float_of_int_nonzero with (Z.abs z).
    + intros [= <-]. by apply float_of_int_Raise in Hy.
  - assert (Hnz : SFeqb (SFabs f) fzero = false).
    { destruct (negative_float f Hlt) as [->|(m & x & ->)]; reflexivity. }
    destruct c as [a|a|a]; cbn [truediv to_float rbind];
      try (destruct (float_of_int _) as [y|ey] eqn:Hy; cbn [rbind];
           [|intros [= <-]; by apply float_of_int_Raise in Hy]);
      intros H; exfalso; eapply float_truediv_Raise; eauto.
Qed.

Lemma runtime_value_Raise c i e :
  lt_zero i = true -> runtime_value c i = Raise e ->
  e = OverflowError \/ e = ValueError.
Proof.
  intros Hlt. unfold runtime_value.
  destruct (truediv c (abs i)) as [q|eq] eqn:Hq; cbn [rbind].
  - destruct (mul q _HRS_TO_SECS) as [s|es] eqn:Hs; cbn [rbind].
    + apply int_Raise.
    + intros [= <-]. left. by apply mul_Raise in Hs.
  - intros [= <-]. left. by apply truediv_abs_Raise in Hq.
Qed.

Lemma table_Raise tf x e : In tf table -> snd tf x = Raise e -> arith_exn e.
Proof.
  unfold table, arith_exn.
  intros [ <- | [ <- | [ <- | [ <- | [] ] ] ] ]; cbn [snd];
    unfold derive_cycle_cap, derive_power, derive_charging, derive_runtime.
  - destruct (in_voltage x) as [v|], (in_cycle_chrg x) as [c|]; try discriminate.
    destruct (mul v c) eqn:Hm; cbn [rbind]; [discriminate|].
    intros [= <-]. left. by apply mul_Raise in Hm.
  - destruct (in_voltage x) as [v|], (in_current x) as [i|]; try discriminate.
    destruct (mul v i) eqn:Hm; cbn [rbind]; [discriminate|].
    intros [= <-]. left. by apply mul_Raise in Hm.
  - destruct (in_current x); discriminate.
  - destruct (in_current x) as [i|], (in_cycle_chrg x) as [c|]; try discriminate.
    destruct (lt_zero i) eqn:Hlt; [|discriminate].
    destruct (runtime_value c i) eqn:Hr; cbn [rbind]; [discriminate|].
    intros [= <-]. by apply runtime_value_Raise in Hr.
Qed.

Lemma exec_Raise values tbl :
  forall d e, fst (exec values tbl d) = Raise e ->
    exists tf x, In tf tbl /\ snd tf x = Raise e.
Proof.
  induction tbl as [|[t f] tbl IH]; intros d e; [discriminate|].
  rewrite exec_cons. destruct (outcome values t f d) as [o|e'] eqn:Ho.
  - intros H. destruct (IH _ _ H) as (tf & x & Hin & Hx).
    exists tf, x. split; [by right | exact Hx].
  - cbn [fst]. intros [= ->]. apply outcome_Raise in Ho as (_ & _ & Hf).
    exists (t, f), (view d). split; [by left | exact Hf].
Qed.

Lemma calc_values_Raise values data e :
  fst (calc_values values data) = Raise e -> arith_exn e.
Proof.
  rewrite calc_values_exec. intros H.
  destruct (exec_Raise _ _ _ _ H) as (tf & x & Hin & Hx).
  by apply table_Raise with tf x.
Qed.

(** ** Division safety *)

(** C10: the division of the runtime rule is safe.  Under the guard
    [current < 0] the divisor [abs(current)] is strictly positive and the
    division does not raise ZeroDivisionError; without the guard the runtime
    rule returns without dividing; and calc_values never raises
    ZeroDivisionError, for any mapping, including one whose current is 0. *)
Theorem runtime_division_safe (values : gset string) (data : data_t) :
  fst (calc_values values data) <> Raise ZeroDivisionError /\
  (forall c i, lt_zero i = true ->
     gt_zero (abs i) = true /\ truediv c (abs i) <> Raise ZeroDivisionError) /\
  (forall i, data !! ATTR_CURRENT = Some i -> lt_zero i = false ->
     calc_runtime values data = (Ok tt, data)) /\
  calc_values {[ATTR_RUNTIME]} data_idle = (Ok tt, data_idle).
Proof.
  split; [|split; [|split]].
  - intros H. apply calc_values_Raise in H as [H|H]; discriminate.
  - intros c i Hlt. split; [by apply lt_zero_abs|].
    intros H. apply truediv_abs_Raise in H; [discriminate | exact Hlt].
  - intros i Hi Hlt. rewrite calc_runtime_step.
    apply (step_Ok values ATTR_RUNTIME derive_runtime data None).
    unfold outcome, derive_runtime, view, in_current, in_cycle_chrg.
    rewrite Hi, Hlt.
    destruct (bool_decide _ && bool_decide _); [|reflexivity].
    destruct (data !! ATTR_CYCLE_CHRG); reflexivity.
  - vm_compute. reflexivity.
Qed.

Lemma runtime_division_safe_witness :
  lt_zero (flit (-5)) = true /\
  gt_zero (abs (flit (-5))) = true /\
  truediv (flit 10) (abs (flit (-5))) <> Raise ZeroDivisionError.
Proof.
  split; [reflexivity|].
  destruct (runtime_division_safe ∅ ∅) as (_ & Hdiv & _).
  apply (Hdiv (flit 10) (flit (-5))). reflexivity.
Defined.

(** ** Missing prerequisites *)

Lemma outcome_skip values t f d :
  f (view d) = Ok None -> outcome values t f d = Ok None.
Proof. intros Hf. unfold outcome. rewrite Hf. by destruct (_ && _). Qed.


Lemma exec_skip_target values t tbl :
  Forall (fun tf => is_target (fst tf)) tbl ->
  forall d, (forall f, In (t, f) tbl -> f (view d) = Ok None) ->
    snd (exec values tbl d) !! t = d !! t.
Proof.
  induction 1 as [|[t' f'] tbl Ht' _ IH]; intros d Hf; [reflexivity|].
  rewrite exec_cons. cbn [fst] in Ht'.
  destruct (outcome values t' f' d) as [o|e] eqn:Ho; [|reflexivity].
  rewrite IH.
  - destruct (decide (t = t')) as [->|Hne]; [|by apply put_lookup_ne].
    rewrite outcome_skip in Ho by (apply Hf; by left).
    by inversion Ho.
  - intros f Hin. rewrite view_put by assumption. apply Hf. by right.
Qed.







(** The derivation the table holds for each target. *)
Lemma table_lookup t f :
  In (t, f) table ->
  (t = ATTR_CYCLE_CAP /\ f = derive_cycle_cap) \/
  (t = ATTR_POWER /\ f = derive_power) \/
  (t = ATTR_BATTERY_CHARGING /\ f = derive_charging) \/
  (t = ATTR_RUNTIME /\ f = derive_runtime).
Proof.
  unfold table. intros [H|[H|[H|[H|[]]]]]; inversion H; subst; tauto.
Qed.

Lemma calc_values_skip_target values data t f :
  In (t, f) table -> f (view data) = Ok None ->
  snd (calc_values values data) !! t = data !! t.
Proof.
  intros Hin Hf. rewrite calc_values_exec.
  apply exec_skip_target; [apply table_all_targets|].
  intros f' Hin'.
  apply table_lookup in Hin, Hin'.
  destruct Hin as [[-> ->]|[[-> ->]|[[-> ->]|[-> ->]]]];
    destruct Hin' as [[E ->]|[[E ->]|[[E ->]|[E ->]]]];
    (exact Hf || discriminate E).
Qed.

(** Closed-form targets of the table, for side conditions. *)
Ltac table_side :=
  match goal with
  | |- Forall _ _ => repeat constructor; unfold is_target; cbn [fst]; tauto
  | |- ~ In _ _ => cbn [map fst In]; intros H; repeat destruct H as [H|H]; discriminate || exact H
  end.

Lemma run_all_cons x l d :
  run_all (x :: l) d =
  match x d with
  | (Ok _, d1) => run_all l d1
  | (Raise e, d1) => (Raise e, d1)
  end.
Proof. reflexivity. Qed.







(** ** What each derivation adds *)

(** A rule whose gate is open and whose derivation yields [r] stores [r],
    provided the rules before it returned normally. *)
Lemma exec_adds values tbl1 t f tbl2 d d1 r :
  Forall (fun tf => is_target (fst tf)) tbl1 -> ~ In t (map fst tbl1) ->
  exec values tbl1 d = (Ok tt, d1) ->
  t ∈ values -> d !! t = None -> f (view d) = Ok (Some r) ->
  exec values (tbl1 ++ (t, f) :: tbl2) d = exec values tbl2 (<[t := r]> d1).
Proof.
  intros Htg Hnotin E1 Hreq Habs Hf.
  pose proof (exec_extends values tbl1 Htg d) as Hext.
  pose proof (exec_lookup_notin values tbl1 d t Hnotin) as Hlook.
  rewrite E1 in Hext, Hlook. cbn [snd] in Hext, Hlook.
  rewrite exec_app, E1, exec_cons, outcome_open; [| exact Hreq | congruence].
  rewrite (extends_view _ _ _ Hext), Hf. reflexivity.
Qed.

Lemma exec_keeps values tbl d k v :
  Forall (fun tf => is_target (fst tf)) tbl ->
  d !! k = Some v -> snd (exec values tbl d) !! k = Some v.
Proof. intros Htg. apply extends_Some with values, exec_extends, Htg. Qed.

Lemma calc_cycle_cap_exec values d :
  calc_cycle_cap values d = exec values [(ATTR_CYCLE_CAP, derive_cycle_cap)] d.
Proof.
  rewrite calc_cycle_cap_step. unfold exec. cbn [map run_all fst snd]. unfold bind.
  destruct (step values ATTR_CYCLE_CAP derive_cycle_cap d) as [[[]|e] d1]; reflexivity.
Qed.

Lemma calc_cap_power_exec values d :
  (calc_cycle_cap values ;;; calc_power values) d =
  exec values [(ATTR_CYCLE_CAP, derive_cycle_cap); (ATTR_POWER, derive_power)] d.
Proof.
  unfold exec. cbn [map run_all fst snd]. unfold bind.
  rewrite calc_cycle_cap_step.
  destruct (step values ATTR_CYCLE_CAP derive_cycle_cap d) as [[[]|e] d1]; [|reflexivity].
  rewrite calc_power_step.
  destruct (step values ATTR_POWER derive_power d1) as [[[]|e] d2]; reflexivity.
Qed.

Lemma exec_charging values d :
  exists d', exec values [(ATTR_BATTERY_CHARGING, derive_charging)] d = (Ok tt, d').
Proof.
  rewrite exec_cons.
  destruct (outcome values ATTR_BATTERY_CHARGING derive_charging d) as [o|e] eqn:Ho.
  - eexists. apply exec_nil.
  - apply outcome_Raise in Ho as (_ & _ & Hf). unfold derive_charging in Hf.
    destruct (in_current (view d)); discriminate.
Qed.

Lemma result_unit_Ok (p : result unit * gmap string value) :
  fst p = Ok tt -> p = (Ok tt, snd p).
Proof. destruct p as [r d]. cbn. by intros ->. Qed.

(** ** Cycle capacity *)

(** C3, as stated, fails on [{voltage: 10**400, cycle-charge: 1.0}] with
    cycle-capacity requested: the product of an int beyond the float range
    and a float raises OverflowError, and cycle-capacity is not added. *)
Lemma cycle_cap_counterexample :
  ATTR_CYCLE_CAP ∈ ({[ATTR_CYCLE_CAP]} : gset string) /\
  data_huge_cap !! ATTR_CYCLE_CAP = None /\
  data_huge_cap !! ATTR_VOLTAGE = Some (Int (10 ^ 400)) /\
  data_huge_cap !! ATTR_CYCLE_CHRG = Some (flit 1) /\
  calc_values {[ATTR_CYCLE_CAP]} data_huge_cap = (Raise OverflowError, data_huge_cap) /\
  snd (calc_values {[ATTR_CYCLE_CAP]} data_huge_cap) !! ATTR_CYCLE_CAP = None.
Proof.
  split; [set_solver|].
  repeat split; vm_compute; reflexivity.
Qed.

(** C3 (amended): if cycle-capacity is requested, absent, voltage and
    cycle-charge are present and their Python product is defined, then after
    calc_values the mapping contains cycle-capacity equal to that product;
    from [{voltage: 12.0, cycle-charge: 10.0}] with cycle-capacity requested
    the call returns normally having added cycle-capacity = 120.0. *)
Theorem cycle_cap_derived :
  (forall (values : gset string) (data : data_t) v c r,
     ATTR_CYCLE_CAP ∈ values ->
     data !! ATTR_CYCLE_CAP = None ->
     data !! ATTR_VOLTAGE = Some v ->
     data !! ATTR_CYCLE_CHRG = Some c ->
     mul v c = Ok r ->
     snd (calc_values values data) !! ATTR_CYCLE_CAP = Some r) /\
  calc_values {[ATTR_CYCLE_CAP]} data_cap
    = (Ok tt, <[ATTR_CYCLE_CAP := flit 120]> data_cap).
Proof.
  split; [|vm_compute; reflexivity].
  intros values data v c r Hreq Habs Hv Hc Hm.
  rewrite calc_values_exec.
  change table with ([] ++ (ATTR_CYCLE_CAP, derive_cycle_cap)
    :: [(ATTR_POWER, derive_power); (ATTR_BATTERY_CHARGING, derive_charging);
        (ATTR_RUNTIME, derive_runtime)]).
  rewrite (exec_adds values [] _ _ _ data data r);
    [| constructor | intros [] | reflexivity | exact Hreq | exact Habs |].
  - apply exec_keeps; [table_side | apply lookup_insert_eq].
  - unfold derive_cycle_cap, view, in_voltage, in_cycle_chrg. by rewrite Hv, Hc, Hm.
Qed.

Lemma cycle_cap_derived_witness :
  mul (flit 12) (flit 10) = Ok (flit 120) /\
  snd (calc_values {[ATTR_CYCLE_CAP]} data_cap) !! ATTR_CYCLE_CAP = Some (flit 120).
Proof.
  assert (Hm : mul (flit 12) (flit 10) = Ok (flit 120)) by (vm_compute; reflexivity).
  split; [exact Hm|].
  apply (proj1 cycle_cap_derived {[ATTR_CYCLE_CAP]} data_cap (flit 12) (flit 10) (flit 120)).
  - apply elem_of_singleton. reflexivity.
  - reflexivity.
  - reflexivity.
  - reflexivity.
  - exact Hm.
Defined.

(** ** Power and charging flag *)

(** C4, as stated, fails on [{voltage: 10**400, current: 2.0}] with power
    and the charging flag requested: the product raises OverflowError, the
    call is left at the power rule, and neither key is added. *)
Lemma power_charging_counterexample :
  ATTR_POWER ∈ ({[ATTR_POWER; ATTR_BATTERY_CHARGING]} : gset string) /\
  ATTR_BATTERY_CHARGING ∈ ({[ATTR_POWER; ATTR_BATTERY_CHARGING]} : gset string) /\
  data_huge_power !! ATTR_POWER = None /\
  data_huge_power !! ATTR_BATTERY_CHARGING = None /\
  data_huge_power !! ATTR_VOLTAGE = Some (Int (10 ^ 400)) /\
  data_huge_power !! ATTR_CURRENT = Some (flit 2) /\
  calc_values {[ATTR_POWER; ATTR_BATTERY_CHARGING]} data_huge_power
    = (Raise OverflowError, data_huge_power) /\
  snd (calc_values {[ATTR_POWER; ATTR_BATTERY_CHARGING]} data_huge_power)
    !! ATTR_POWER = None /\
  snd (calc_values {[ATTR_POWER; ATTR_BATTERY_CHARGING]} data_huge_power)
    !! ATTR_BATTERY_CHARGING = None.
Proof.
  split; [set_solver|]. split; [set_solver|].
  split; [reflexivity|]. split; [reflexivity|].
  split; [reflexivity|]. split; [reflexivity|].
  assert (E : calc_values {[ATTR_POWER; ATTR_BATTERY_CHARGING]} data_huge_power
              = (Raise OverflowError, data_huge_power)) by (vm_compute; reflexivity).
  rewrite E. split; [reflexivity|]. split; reflexivity.
Qed.

(** C4 (amended): if power is requested, absent, voltage and current are
    present, the cycle-capacity rule before it raises no exception and the
    Python product voltage * current is defined, calc_values adds power equal
    to that product; if the charging flag is requested, absent, current is
    present and the two rules before it raise no exception, calc_values adds
    the charging flag equal to (current > 0); from
    [{voltage: 12.0, current: 2.0}] with both requested the call returns
    normally having added power = 24.0 and charging-flag = true. *)
Theorem power_charging_derived :
  (forall (values : gset string) (data : data_t) v i r,
     ATTR_POWER ∈ values ->
     data !! ATTR_POWER = None ->
     data !! ATTR_VOLTAGE = Some v ->
     data !! ATTR_CURRENT = Some i ->
     fst (calc_cycle_cap values data) = Ok tt ->
     mul v i = Ok r ->
     snd (calc_values values data) !! ATTR_POWER = Some r) /\
  (forall (values : gset string) (data : data_t) i,
     ATTR_BATTERY_CHARGING ∈ values ->
     data !! ATTR_BATTERY_CHARGING = None ->
     data !! ATTR_CURRENT = Some i ->
     fst ((calc_cycle_cap values ;;; calc_power values) data) = Ok tt ->
     snd (calc_values values data) !! ATTR_BATTERY_CHARGING = Some (Bool (gt_zero i))) /\
  calc_values {[ATTR_POWER; ATTR_BATTERY_CHARGING]} data_power
    = (Ok tt, <[ATTR_BATTERY_CHARGING := Bool true]> (<[ATTR_POWER := flit 24]> data_power)).
Proof.
  split; [|split; [|vm_compute; reflexivity]].
  - intros values data v i r Hreq Habs Hv Hi Hcap Hm.
    rewrite calc_cycle_cap_exec in Hcap. apply result_unit_Ok in Hcap.
    rewrite calc_values_exec.
    change table with ([(ATTR_CYCLE_CAP, derive_cycle_cap)] ++ (ATTR_POWER, derive_power)
      :: [(ATTR_BATTERY_CHARGING, derive_charging); (ATTR_RUNTIME, derive_runtime)]).
    erewrite (exec_adds values _ _ _ _ data _ r);
      [| table_side | table_side | exact Hcap | exact Hreq | exact Habs |].
    + apply exec_keeps; [table_side | apply lookup_insert_eq].
    + unfold derive_power, view, in_voltage, in_current. by rewrite Hv, Hi, Hm.
  - intros values data i Hreq Habs Hi Hpre.
    rewrite calc_cap_power_exec in Hpre. apply result_unit_Ok in Hpre.
    rewrite calc_values_exec.
    change table with ([(ATTR_CYCLE_CAP, derive_cycle_cap); (ATTR_POWER, derive_power)]
      ++ (ATTR_BATTERY_CHARGING, derive_charging) :: [(ATTR_RUNTIME, derive_runtime)]).
    erewrite (exec_adds values _ _ _ _ data _ (Bool (gt_zero i)));
      [| table_side | table_side | exact Hpre | exact Hreq | exact Habs |].
    + apply exec_keeps; [table_side | apply lookup_insert_eq].
    + unfold derive_charging, view, in_current. by rewrite Hi.
Qed.

Lemma power_charging_derived_witness :
  snd (calc_values {[ATTR_POWER; ATTR_BATTERY_CHARGING]} data_power) !! ATTR_POWER
    = Some (flit 24) /\
  snd (calc_values {[ATTR_POWER; ATTR_BATTERY_CHARGING]} data_power)
    !! ATTR_BATTERY_CHARGING = Some (Bool (gt_zero (flit 2))).
Proof.
  destruct power_charging_derived as (Hpower & Hflag & _).
  split.
  - apply (Hpower {[ATTR_POWER; ATTR_BATTERY_CHARGING]} data_power (flit 12) (flit 2) (flit 24)).
    + apply elem_of_union_l, elem_of_singleton. reflexivity.
    + reflexivity.
    + reflexivity.
    + reflexivity.
    + vm_compute. reflexivity.
    + vm_compute. reflexivity.
  - apply (Hflag {[ATTR_POWER; ATTR_BATTERY_CHARGING]} data_power (flit 2)).
    + apply elem_of_union_r, elem_of_singleton. reflexivity.
    + reflexivity.
    + reflexivity.
    + vm_compute. reflexivity.
Defined.

(** ** Runtime *)

(** C5, as stated, fails on [{current: -1.0, cycle-charge: 1e308}] with
    runtime requested: the current is strictly negative, but the quotient
    times 3600 overflows to infinity, [int()] raises OverflowError, and
    runtime is not added. *)
Lemma runtime_counterexample :
  ATTR_RUNTIME ∈ ({[ATTR_RUNTIME]} : gset string) /\
  data_overflow !! ATTR_RUNTIME = None /\
  data_overflow !! ATTR_CURRENT = Some (flit (-1)) /\
  data_overflow !! ATTR_CYCLE_CHRG = Some (flit (10 ^ 308)) /\
  lt_zero (flit (-1)) = true /\
  runtime_value (flit (10 ^ 308)) (flit (-1)) = Raise OverflowError /\
  calc_values {[ATTR_RUNTIME]} data_overflow = (Raise OverflowError, data_overflow) /\
  snd (calc_values {[ATTR_RUNTIME]} data_overflow) !! ATTR_RUNTIME = None.
Proof.
  split; [set_solver|].
  split; [reflexivity|]. split; [reflexivity|]. split; [reflexivity|].
  split; [reflexivity|]. split; [vm_compute; reflexivity|].
  assert (E : calc_values {[ATTR_RUNTIME]} data_overflow
              = (Raise OverflowError, data_overflow)) by (vm_compute; reflexivity).
  rewrite E. split; reflexivity.
Qed.

(** C5 (amended): if runtime is requested, absent, current and cycle-charge
    are present, current is strictly negative, the rules before the runtime
    rule raise no exception and [int(cycle-charge / abs(current) * 3600)] is
    defined, calc_values returns normally having added runtime equal to it;
    whenever current is not strictly negative (current >= 0, including
    current = 0) runtime is not added, even though requested and its inputs
    present.  From [{current: -5.0, cycle-charge: 10.0}] runtime = 7200 is
    added; from [{current: 5.0, cycle-charge: 10.0}] and from current = 0
    nothing is added. *)
Theorem runtime_derived :
  (forall (values : gset string) (data : data_t) i c r,
     ATTR_RUNTIME ∈ values ->
     data !! ATTR_RUNTIME = None ->
     data !! ATTR_CURRENT = Some i ->
     data !! ATTR_CYCLE_CHRG = Some c ->
     lt_zero i = true ->
     fst ((calc_cycle_cap values ;;; calc_power values) data) = Ok tt ->
     runtime_value c i = Ok r ->
     fst (calc_values values data) = Ok tt /\
     snd (calc_values values data) !! ATTR_RUNTIME = Some r) /\
  (forall (values : gset string) (data : data_t) i,
     data !! ATTR_RUNTIME = None ->
     data !! ATTR_CURRENT = Some i ->
     lt_zero i = false ->
     snd (calc_values values data) !! ATTR_RUNTIME = None) /\
  calc_values {[ATTR_RUNTIME]} data_discharging
    = (Ok tt, <[ATTR_RUNTIME := Int 7200]> data_discharging) /\
  calc_values {[ATTR_RUNTIME]} data_charging = (Ok tt, data_charging) /\
  calc_values {[ATTR_RUNTIME]} data_idle = (Ok tt, data_idle).
Proof.
  split; [|split; [|repeat split; vm_compute; reflexivity]].
  - intros values data i c r Hreq Habs Hi Hc Hlt Hpre Hr.
    rewrite calc_cap_power_exec in Hpre. apply result_unit_Ok in Hpre.
    destruct (exec_charging values
      (snd (exec values [(ATTR_CYCLE_CAP, derive_cycle_cap); (ATTR_POWER, derive_power)] data)))
      as [d3 Hchg].
    assert (Hthree : exec values
      ([(ATTR_CYCLE_CAP, derive_cycle_cap); (ATTR_POWER, derive_power)]
       ++ [(ATTR_BATTERY_CHARGING, derive_charging)]) data = (Ok tt, d3)).
    { rewrite exec_app, Hpre. exact Hchg. }
    cbn [app] in Hthree.
    rewrite calc_values_exec.
    change table with ([(ATTR_CYCLE_CAP, derive_cycle_cap); (ATTR_POWER, derive_power);
                        (ATTR_BATTERY_CHARGING, derive_charging)]
      ++ (ATTR_RUNTIME, derive_runtime) :: []).
    rewrite (exec_adds values _ _ _ _ data d3 r);
      [| table_side | table_side | exact Hthree | exact Hreq | exact Habs |].
    + rewrite exec_nil. cbn [fst snd]. split; [reflexivity | apply lookup_insert_eq].
    + unfold derive_runtime, view, in_current, in_cycle_chrg.
      by rewrite Hi, Hc, Hlt, Hr.
  - intros values data i Habs Hi Hlt.
    rewrite (calc_values_skip_target values data ATTR_RUNTIME derive_runtime);
      [exact Habs | unfold table; cbn [In]; tauto |].
    unfold derive_runtime, view, in_current, in_cycle_chrg. rewrite Hi, Hlt.
    by destruct (data !! ATTR_CYCLE_CHRG).
Qed.

Lemma runtime_derived_witness :
  lt_zero (flit (-5)) = true /\
  runtime_value (flit 10) (flit (-5)) = Ok (Int 7200) /\
  fst (calc_values {[ATTR_RUNTIME]} data_discharging) = Ok tt /\
  snd (calc_values {[ATTR_RUNTIME]} data_discharging) !! ATTR_RUNTIME = Some (Int 7200).
Proof.
  assert (Hr : runtime_value (flit 10) (flit (-5)) = Ok (Int 7200))
    by (vm_compute; reflexivity).
  split; [reflexivity|]. split; [exact Hr|].
  apply (proj1 runtime_derived {[ATTR_RUNTIME]} data_discharging
           (flit (-5)) (flit 10) (Int 7200)).
  - apply elem_of_singleton. reflexivity.
  - reflexivity.
  - reflexivity.
  - reflexivity.
  - reflexivity.
  - vm_compute. reflexivity.
  - exact Hr.
Defined.

(** ** Order of the rules *)

Lemma calc_values_run_all values d : calc_values values d = run_all (rules values) d.
Proof.
  unfold calc_values, rules, run_all, bind, ret.
  destruct (calc_cycle_cap values d) as [[[]|e] d1]; [|reflexivity].
  destruct (calc_power values d1) as [[[]|e] d2]; [|reflexivity].
  destruct (calc_charging values d2) as [[[]|e] d3]; [|reflexivity].
  destruct (calc_runtime values d3) as [[[]|e] d4]; reflexivity.
Qed.

(** A rule neither reads nor writes the target of another rule. *)
Lemma step_frame values t f k v d :
  is_target k -> k <> t ->
  step values t f (<[k := v]> d)
  = (fst (step values t f d), <[k := v]> (snd (step values t f d))).
Proof.
  intros Hk Hne. unfold step.
  change (<[k := v]> d) with (put k (Some v) d).
  rewrite (outcome_put values t f k (Some v) d Hk) by congruence.
  destruct (outcome values t f d) as [o|e]; cbn [fst snd]; [|reflexivity].
  change (<[k := v]> (put t o d)) with (put k (Some v) (put t o d)).
  by rewrite (put_commute t o k (Some v) d) by congruence.
Qed.

Lemma step_commute values t1 f1 t2 f2 d d' :
  is_target t1 -> is_target t2 -> t1 <> t2 ->
  (step values t1 f1 ;;; step values t2 f2) d = (Ok tt, d') <->
  (step values t2 f2 ;;; step values t1 f1) d = (Ok tt, d').
Proof.
  intros Ht1 Ht2 Hne. unfold bind, step.
  destruct (outcome values t1 f1 d) as [o1|e1] eqn:H1;
    destruct (outcome values t2 f2 d) as [o2|e2] eqn:H2;
    rewrite ?(outcome_put values t2 f2 t1 o1 d Ht1) by congruence;
    rewrite ?(outcome_put values t1 f1 t2 o2 d Ht2) by congruence;
    rewrite ?H1, ?H2.
  - by rewrite (put_commute t2 o2 t1 o1 d) by congruence.
  - split; discriminate.
  - split; discriminate.
  - split; discriminate.
Qed.

Lemma rules_are_steps values : Forall (is_rule values) (rules values).
Proof.
  unfold rules, is_rule, table. repeat apply Forall_cons_2; [..|apply Forall_nil_2].
  - exists (ATTR_CYCLE_CAP, derive_cycle_cap). split; [cbn; tauto|]. apply calc_cycle_cap_step.
  - exists (ATTR_POWER, derive_power). split; [cbn; tauto|]. apply calc_power_step.
  - exists (ATTR_BATTERY_CHARGING, derive_charging). split; [cbn; tauto|]. apply calc_charging_step.
  - exists (ATTR_RUNTIME, derive_runtime). split; [cbn; tauto|]. apply calc_runtime_step.
Qed.

Lemma table_functional tf1 tf2 :
  In tf1 table -> In tf2 table -> fst tf1 = fst tf2 -> tf1 = tf2.
Proof.
  destruct tf1 as [t1 f1], tf2 as [t2 f2]. intros H1 H2. cbn [fst]. intros E.
  apply table_lookup in H1, H2.
  destruct H1 as [[-> ->]|[[-> ->]|[[-> ->]|[-> ->]]]];
    destruct H2 as [[-> ->]|[[-> ->]|[[-> ->]|[-> ->]]]];
    (reflexivity || discriminate E).
Qed.

Lemma rule_commute values x y d d' :
  is_rule values x -> is_rule values y ->
  (x ;;; y) d = (Ok tt, d') <-> (y ;;; x) d = (Ok tt, d').
Proof.
  intros (tf1 & Hin1 & Hx) (tf2 & Hin2 & Hy).
  assert (Hxy : (x ;;; y) d = (step values (fst tf1) (snd tf1) ;;;
                                step values (fst tf2) (snd tf2)) d).
  { unfold bind. rewrite Hx. destruct (step _ _ _ d) as [[[]|e] d1]; [apply Hy | reflexivity]. }
  assert (Hyx : (y ;;; x) d = (step values (fst tf2) (snd tf2) ;;;
                                step values (fst tf1) (snd tf1)) d).
  { unfold bind. rewrite Hy. destruct (step _ _ _ d) as [[[]|e] d1]; [apply Hx | reflexivity]. }
  rewrite Hxy, Hyx.
  destruct (decide (fst tf1 = fst tf2)) as [E|Hne].
  - by rewrite (table_functional _ _ Hin1 Hin2 E).
  - apply step_commute; [by apply table_targets..|exact Hne].
Qed.

Lemma run_all_two x y l d :
  run_all (x :: y :: l) d =
  match (x ;;; y) d with
  | (Ok _, d2) => run_all l d2
  | (Raise e, d2) => (Raise e, d2)
  end.
Proof.
  rewrite run_all_cons. unfold bind.
  destruct (x d) as [[[]|e] d1]; [|reflexivity].
  apply run_all_cons.
Qed.

(** Reordering rules changes neither whether the run returns normally nor
    the mapping it returns with. *)
Lemma run_all_perm values l l' :
  Permutation l l' -> Forall (is_rule values) l ->
  forall d d', run_all l d = (Ok tt, d') <-> run_all l' d = (Ok tt, d').
Proof.
  induction 1 as [|x l l' Hp IH|x y l|l l' l'' Hp1 IH1 Hp2 IH2]; intros Hall d d'.
  - reflexivity.
  - apply Forall_cons_1 in Hall as [_ Hl]. rewrite !run_all_cons.
    destruct (x d) as [[[]|e] d1]; [by apply IH | reflexivity].
  - apply Forall_cons_1 in Hall as [Hy Hl]. apply Forall_cons_1 in Hl as [Hx _].
    rewrite !run_all_two.
    pose proof (fun d2 => rule_commute values y x d d2 Hy Hx) as Hc.
    destruct ((y ;;; x) d) as [[[]|e1] d1] eqn:E1;
      destruct ((x ;;; y) d) as [[[]|e2] d2] eqn:E2.
    + destruct (Hc d1) as [H _]. specialize (H eq_refl). by inversion H.
    + destruct (Hc d1) as [H _]. specialize (H eq_refl). discriminate.
    + destruct (Hc d2) as [_ H]. specialize (H eq_refl). discriminate.
    + split; discriminate.
  - rewrite IH1 by exact Hall. apply IH2.
    eapply Permutation_Forall; [exact Hp1 | exact Hall].
Qed.

(** C8, as stated, fails on [{voltage: 12.0, current: -1.0,
    cycle-charge: 1e308}] with power and runtime requested: the runtime rule
    raises OverflowError, so in source order power = -12.0 has been added
    when the call is left, while with the runtime rule applied first nothing
    has been added. *)
Lemma rules_order_counterexample :
  Permutation (rules_reversed {[ATTR_POWER; ATTR_RUNTIME]})
              (rules {[ATTR_POWER; ATTR_RUNTIME]}) /\
  calc_values {[ATTR_POWER; ATTR_RUNTIME]} data_order
    = (Raise OverflowError, <[ATTR_POWER := flit (-12)]> data_order) /\
  run_all (rules_reversed {[ATTR_POWER; ATTR_RUNTIME]}) data_order
    = (Raise OverflowError, data_order) /\
  snd (run_all (rules_reversed {[ATTR_POWER; ATTR_RUNTIME]}) data_order)
    <> snd (calc_values {[ATTR_POWER; ATTR_RUNTIME]} data_order).
Proof.
  assert (E1 : calc_values {[ATTR_POWER; ATTR_RUNTIME]} data_order
               = (Raise OverflowError, <[ATTR_POWER := flit (-12)]> data_order))
    by (vm_compute; reflexivity).
  assert (E2 : run_all (rules_reversed {[ATTR_POWER; ATTR_RUNTIME]}) data_order
               = (Raise OverflowError, data_order))
    by (vm_compute; reflexivity).
  split; [|split; [exact E1|split; [exact E2|]]].
  - symmetry. apply (Permutation_rev (rules {[ATTR_POWER; ATTR_RUNTIME]})).
  - rewrite E1, E2. cbn [snd]. intros E.
    apply (f_equal (fun d : gmap string value => d !! ATTR_POWER)) in E.
    rewrite lookup_insert_eq in E. discriminate E.
Qed.

(** C8 (amended): the four derivation rules are mutually independent: the
    keys they write are not among the keys they read, and writing the target
    of another rule before a rule runs changes neither how the rule ends nor
    what it writes.  Hence for every mapping, requested set and order of the
    four rules, the rules applied in that order return normally with a
    mapping exactly when calc_values returns normally with that mapping. *)
Theorem rules_order_independent (values : gset string) :
  (forall k, is_target k ->
     k <> ATTR_VOLTAGE /\ k <> ATTR_CURRENT /\ k <> ATTR_CYCLE_CHRG) /\
  (forall t r,
     In (t, r) [(ATTR_CYCLE_CAP, calc_cycle_cap values);
                (ATTR_POWER, calc_power values);
                (ATTR_BATTERY_CHARGING, calc_charging values);
                (ATTR_RUNTIME, calc_runtime values)] ->
     forall k v (d : data_t), is_target k -> k <> t ->
       r (<[k := v]> d) = (fst (r d), <[k := v]> (snd (r d)))) /\
  (forall order (data data' : data_t),
     Permutation order (rules values) ->
     (run_all order data = (Ok tt, data') <->
      calc_values values data = (Ok tt, data'))).
Proof.
  split; [exact target_not_input|split].
  - intros t r Hin k v d Hk Hne.
    destruct Hin as [H|[H|[H|[H|[]]]]]; inversion H; subst t r.
    + rewrite !calc_cycle_cap_step. by apply step_frame.
    + rewrite !calc_power_step. by apply step_frame.
    + rewrite !calc_charging_step. by apply step_frame.
    + rewrite !calc_runtime_step. by apply step_frame.
  - intros order data data' Hperm. rewrite calc_values_run_all.
    symmetry. apply (run_all_perm values); [by symmetry | apply rules_are_steps].
Qed.

Lemma rules_order_independent_witness :
  Permutation (rules_reversed {[ATTR_POWER; ATTR_BATTERY_CHARGING]})
              (rules {[ATTR_POWER; ATTR_BATTERY_CHARGING]}) /\
  (run_all (rules_reversed {[ATTR_POWER; ATTR_BATTERY_CHARGING]}) data_power
     = (Ok tt, <[ATTR_BATTERY_CHARGING := Bool true]> (<[ATTR_POWER := flit 24]> data_power)) <->
   calc_values {[ATTR_POWER; ATTR_BATTERY_CHARGING]} data_power
     = (Ok tt, <[ATTR_BATTERY_CHARGING := Bool true]> (<[ATTR_POWER := flit 24]> data_power))).
Proof.
  assert (Hperm : Permutation (rules_reversed {[ATTR_POWER; ATTR_BATTERY_CHARGING]})
                              (rules {[ATTR_POWER; ATTR_BATTERY_CHARGING]})).
  { symmetry. apply (Permutation_rev (rules {[ATTR_POWER; ATTR_BATTERY_CHARGING]})). }
  split; [exact Hperm|].
  destruct (rules_order_independent {[ATTR_POWER; ATTR_BATTERY_CHARGING]}) as (_ & _ & Hord).
  exact (Hord _ data_power _ Hperm).
Defined.

(** * Further properties *)

(** ** Matching against several matcher lists *)

(** X1: matching against the concatenation of two matcher lists is the
    disjunction of matching against each. *)
Theorem supported_app (matcher discovery_info : Type)
    (ble_device_matches : matcher -> discovery_info -> bool)
    (l1 l2 : list matcher) (info : discovery_info) :
  supported matcher discovery_info ble_device_matches (l1 ++ l2) info
  = supported matcher discovery_info ble_device_matches l1 info
    || supported matcher discovery_info ble_device_matches l2 info.
Proof.
  induction l1 as [|m l1 IH]; cbn [app supported]; [reflexivity|].
  destruct (ble_device_matches m info); [reflexivity | exact IH].
Qed.

(** X2: the result of supported does not depend on the order of the matcher
    descriptors: a reordered list gives the same answer. *)
Theorem supported_order_irrelevant (matcher discovery_info : Type)
    (ble_device_matches : matcher -> discovery_info -> bool)
    (l l' : list matcher) (info : discovery_info) :
  Permutation l l' ->
  supported matcher discovery_info ble_device_matches l info
  = supported matcher discovery_info ble_device_matches l' info.
Proof.
  induction 1 as [|m l l' _ IH|m1 m2 l|l l' l'' _ IH1 _ IH2]; cbn [supported].
  - reflexivity.
  - by rewrite IH.
  - by destruct (ble_device_matches m1 info), (ble_device_matches m2 info).
  - by rewrite IH1.
Qed.

Lemma supported_order_irrelevant_witness :
  Permutation [1%nat; 2%nat; 3%nat] [3%nat; 1%nat; 2%nat] /\
  supported nat nat Nat.eqb [1%nat; 2%nat; 3%nat] 3%nat
  = supported nat nat Nat.eqb [3%nat; 1%nat; 2%nat] 3%nat.
Proof.
  assert (Hp : Permutation [1%nat; 2%nat; 3%nat] [3%nat; 1%nat; 2%nat]).
  { symmetry. apply (Permutation_cons_app [1%nat; 2%nat] [] 3%nat). reflexivity. }
  split; [exact Hp|].
  exact (supported_order_irrelevant nat nat Nat.eqb _ _ 3%nat Hp).
Defined.

(** ** The device identifier *)

Lemma concat_space_cons x y l :
  String.concat " " (x :: y :: l) = x +:+ " " +:+ String.concat " " (y :: l).
Proof. reflexivity. Qed.

Lemma string_app_assoc (a b c : string) : (a +:+ b) +:+ c = a +:+ (b +:+ c).
Proof.
  induction a as [|ch a IH]; [reflexivity|].
  change (String ch ((a +:+ b) +:+ c) = String ch (a +:+ (b +:+ c))).
  by f_equal.
Qed.

Lemma string_app_length (a b : string) :
  String.length (a +:+ b) = (String.length a + String.length b)%nat.
Proof.
  induction a as [|ch a IH]; [reflexivity|].
  change (S (String.length (a +:+ b)) = S (String.length a + String.length b)).
  by f_equal.
Qed.

Lemma concat_space_app (l1 l2 : list string) :
  l1 <> [] -> l2 <> [] ->
  String.concat " " (l1 ++ l2) = String.concat " " l1 +:+ " " +:+ String.concat " " l2.
Proof.
  intros H1 H2. destruct l2 as [|y l2]; [congruence|]. clear H2.
  induction l1 as [|x l1 IH]; [congruence|]. clear H1.
  destruct l1 as [|x' l1].
  - reflexivity.
  - change ((x :: x' :: l1) ++ y :: l2) with (x :: x' :: (l1 ++ y :: l2)).
    rewrite !concat_space_cons.
    change (x' :: l1 ++ y :: l2) with ((x' :: l1) ++ y :: l2).
    rewrite IH by discriminate.
    by rewrite !string_app_assoc.
Qed.

Lemma concat_space_length (l : list string) :
  l <> [] ->
  String.length (String.concat " " l)
  = (list_sum (List.map String.length l) + (length l - 1))%nat.
Proof.
  intros Hne. induction l as [|x l IH]; [congruence|]. clear Hne.
  destruct l as [|y l].
  - change (String.length x = (String.length x + 0 + (1 - 1))%nat). lia.
  - rewrite concat_space_cons, !string_app_length, IH by discriminate.
    change (String.length " ") with 1%nat.
    change (list_sum (List.map String.length (x :: y :: l)))
      with (String.length x + list_sum (List.map String.length (y :: l)))%nat.
    change (length (x :: y :: l)) with (S (length (y :: l))).
    change (length (y :: l)) with (S (length l)).
    lia.
Qed.

(** X3: the identifier of two device-info dictionaries put one after the
    other is the two identifiers joined by one space, when neither is
    empty. *)
Theorem device_id_app (info1 info2 : list (string * string)) :
  info1 <> [] -> info2 <> [] ->
  device_id (info1 ++ info2) = device_id info1 +:+ " " +:+ device_id info2.
Proof.
  unfold device_id. intros H1 H2. rewrite map_app.
  apply concat_space_app; by destruct info1, info2.
Qed.

Lemma device_id_app_witness :
  device_id ([("manufacturer", "Seplos")] ++ [("model", "Smart BMS V3")])
  = "Seplos Smart BMS V3".
Proof.
  rewrite (device_id_app [("manufacturer", "Seplos")] [("model", "Smart BMS V3")]);
    [reflexivity | discriminate | discriminate].
Defined.

(** X4: the identifier is as long as the values together, plus one
    separating space between each two of them. *)
Theorem device_id_length (info : list (string * string)) :
  info <> [] ->
  String.length (device_id info)
  = (list_sum (List.map (fun kv => String.length (snd kv)) info) + (length info - 1))%nat.
Proof.
  unfold device_id. intros Hne.
  rewrite concat_space_length by (by destruct info).
  by rewrite List.map_map, length_map.
Qed.

Lemma device_id_length_witness :
  String.length (device_id [("manufacturer", "Seplos"); ("model", "Smart BMS V3")]) = 19%nat.
Proof.
  rewrite (device_id_length [("manufacturer", "Seplos"); ("model", "Smart BMS V3")]);
    [reflexivity | discriminate].
Defined.

(** ** What calc_values leaves alone *)

(** X5: calc_values touches nothing but its four targets: every other key,
    the three inputs included, has after the call exactly the binding it had
    before, present or absent. *)
Theorem calc_values_other_keys (values : gset string) (data : data_t) k :
  ~ is_target k ->
  snd (calc_values values data) !! k = data !! k.
Proof.
  intros Hk. destruct (calc_values_extends values data k) as [E|(_ & _ & Ht)];
    [exact E | contradiction].
Qed.

Lemma calc_values_other_keys_witness :
  ~ is_target ATTR_CURRENT /\
  snd (calc_values {[ATTR_POWER]} data_power) !! ATTR_CURRENT = data_power !! ATTR_CURRENT.
Proof.
  assert (Hk : ~ is_target ATTR_CURRENT).
  { unfold is_target. intros [H|[H|[H|H]]]; discriminate H. }
  split; [exact Hk|].
  exact (calc_values_other_keys {[ATTR_POWER]} data_power ATTR_CURRENT Hk).
Defined.

Lemma exec_noop values tbl d :
  (forall tf, In tf tbl -> outcome values (fst tf) (snd tf) d = Ok None) ->
  exec values tbl d = (Ok tt, d).
Proof.
  induction tbl as [|[t f] tbl IH]; intros Hall; [reflexivity|].
  pose proof (Hall (t, f) (or_introl eq_refl)) as Ho. cbn [fst snd] in Ho.
  rewrite exec_cons, Ho.
  cbn [put]. apply IH. intros tf Hin. apply Hall. by right.
Qed.

(** X6: when every requested target is already in the mapping (in
    particular when nothing is requested), calc_values returns normally and
    leaves the mapping as it was, whatever the inputs are. *)
Theorem calc_values_nothing_to_add (values : gset string) (data : data_t) :
  (forall t, is_target t -> t ∈ values -> is_Some (data !! t)) ->
  calc_values values data = (Ok tt, data).
Proof.
  intros Hall. rewrite calc_values_exec. apply exec_noop.
  intros [t f] Hin. cbn [fst snd].
  pose proof (table_targets _ Hin) as Ht. cbn [fst] in Ht.
  destruct (decide (t ∈ values)) as [Hreq|Hreq].
  - destruct (Hall t Ht Hreq) as [v Hv]. by apply outcome_present with v.
  - by apply outcome_unrequested.
Qed.

Lemma calc_values_nothing_to_add_witness :
  calc_values ∅ data_overflow = (Ok tt, data_overflow).
Proof.
  apply (calc_values_nothing_to_add ∅ data_overflow).
  intros t _ Hin. by apply not_elem_of_empty in Hin.
Defined.

Lemma exec_frame_key values k v tbl :
  Forall (fun tf => fst tf <> k) tbl ->
  (forall d : gmap string value, view (<[k := v]> d) = view d) ->
  forall d,
    exec values tbl (<[k := v]> d)
    = (fst (exec values tbl d), <[k := v]> (snd (exec values tbl d))).
Proof.
  intros Hne Hview. induction Hne as [|[t f] tbl Ht _ IH]; intros d; [reflexivity|].
  cbn [fst] in Ht. rewrite !exec_cons.
  rewrite (outcome_ext values t f d (<[k := v]> d))
    by (apply Hview || by apply lookup_insert_ne).
  destruct (outcome values t f d) as [o|e]; [|reflexivity].
  change (<[k := v]> d) with (put k (Some v) d).
  rewrite (put_commute t o k (Some v) d) by exact Ht.
  apply IH.
Qed.

(** X7: a key that is neither an input nor a target (another metric of the
    device, say a temperature) is invisible to calc_values: with it in the
    mapping the call ends the same way and leaves the same mapping, plus that
    key. *)
Theorem calc_values_ignores_other_metrics (values : gset string) (data : data_t) k v :
  ~ is_target k ->
  k <> ATTR_VOLTAGE -> k <> ATTR_CURRENT -> k <> ATTR_CYCLE_CHRG ->
  calc_values values (<[k := v]> data)
  = (fst (calc_values values data), <[k := v]> (snd (calc_values values data))).
Proof.
  intros Hk Hv Hi Hc. rewrite !calc_values_exec. apply exec_frame_key.
  - apply Forall_forall. intros tf Hin Heq. apply Hk. rewrite <- Heq.
    apply table_targets. by apply list_elem_of_In.
  - intros d. unfold view. by rewrite !lookup_insert_ne by congruence.
Qed.

Lemma calc_values_ignores_other_metrics_witness :
  calc_values {[ATTR_POWER]} (<["temperature" := flit 25]> data_power)
  = (fst (calc_values {[ATTR_POWER]} data_power),
     <["temperature" := flit 25]> (snd (calc_values {[ATTR_POWER]} data_power))).
Proof.
  apply (calc_values_ignores_other_metrics {[ATTR_POWER]} data_power "temperature" (flit 25)).
  - unfold is_target. intros [H|[H|[H|H]]]; discriminate H.
  - discriminate.
  - discriminate.
  - discriminate.
Defined.

(** ** Where an added value comes from *)

Lemma exec_added values tbl :
  Forall (fun tf => is_target (fst tf)) tbl -> NoDup (map fst tbl) ->
  forall d t r, d !! t = None -> snd (exec values tbl d) !! t = Some r ->
    exists f, In (t, f) tbl /\ t ∈ values /\ f (view d) = Ok (Some r).
Proof.
  induction 1 as [|[t' f'] tbl Ht' Htbl IH]; intros Hnd d t r Habs Hr.
  - cbn in Hr. congruence.
  - cbn [map fst] in Hnd, Ht'. inversion Hnd as [|? ? Hnotin Hnd']; subst.
    rewrite list_elem_of_In in Hnotin.
    rewrite exec_cons in Hr.
    destruct (outcome values t' f' d) as [o|e] eqn:Ho; [|cbn in Hr; congruence].
    destruct (decide (t = t')) as [->|Hne].
    + rewrite exec_lookup_notin in Hr by assumption.
      destruct o as [v|]; cbn [put] in Hr; [|congruence].
      rewrite lookup_insert_eq in Hr. inversion Hr; subst v.
      apply outcome_Some in Ho as (Hreq & _ & Hf).
      exists f'. split; [by left | by split].
    + destruct (IH Hnd' (put t' o d) t r) as (f & Hin & Hreq & Hf).
      * by rewrite put_lookup_ne.
      * exact Hr.
      * exists f. split; [by right|]. split; [exact Hreq|].
        by rewrite view_put in Hf.
Qed.

Lemma calc_values_added values data t r :
  data !! t = None -> snd (calc_values values data) !! t = Some r ->
  exists f, In (t, f) table /\ t ∈ values /\ f (view data) = Ok (Some r).
Proof.
  rewrite calc_values_exec.
  apply exec_added; [apply table_all_targets | apply targets_NoDup].
Qed.

Lemma added_cycle_cap values data r :
  data !! ATTR_CYCLE_CAP = None ->
  snd (calc_values values data) !! ATTR_CYCLE_CAP = Some r ->
  ATTR_CYCLE_CAP ∈ values /\
  exists v c, data !! ATTR_VOLTAGE = Some v /\ data !! ATTR_CYCLE_CHRG = Some c /\
              mul v c = Ok r.
Proof.
  intros Habs Hr. destruct (calc_values_added _ _ _ _ Habs Hr) as (f & Hin & Hreq & Hf).
  split; [exact Hreq|]. apply table_lookup in Hin.
  destruct Hin as [[_ ->]|[[E _]|[[E _]|[E _]]]]; try discriminate E.
  unfold derive_cycle_cap, view, in_voltage, in_cycle_chrg in Hf.
  destruct (data !! ATTR_VOLTAGE) as [v|], (data !! ATTR_CYCLE_CHRG) as [c|];
    try discriminate Hf.
  exists v, c. split; [reflexivity|]. split; [reflexivity|].
  destruct (mul v c); cbn [rbind] in Hf; congruence.
Qed.

Lemma added_power values data r :
  data !! ATTR_POWER = None ->
  snd (calc_values values data) !! ATTR_POWER = Some r ->
  ATTR_POWER ∈ values /\
  exists v i, data !! ATTR_VOLTAGE = Some v /\ data !! ATTR_CURRENT = Some i /\
              mul v i = Ok r.
Proof.
  intros Habs Hr. destruct (calc_values_added _ _ _ _ Habs Hr) as (f & Hin & Hreq & Hf).
  split; [exact Hreq|]. apply table_lookup in Hin.
  destruct Hin as [[E _]|[[_ ->]|[[E _]|[E _]]]]; try discriminate E.
  unfold derive_power, view, in_voltage, in_current in Hf.
  destruct (data !! ATTR_VOLTAGE) as [v|], (data !! ATTR_CURRENT) as [i|];
    try discriminate Hf.
  exists v, i. split; [reflexivity|]. split; [reflexivity|].
  destruct (mul v i); cbn [rbind] in Hf; congruence.
Qed.

Lemma added_charging values data r :
  data !! ATTR_BATTERY_CHARGING = None ->
  snd (calc_values values data) !! ATTR_BATTERY_CHARGING = Some r ->
  ATTR_BATTERY_CHARGING ∈ values /\
  exists i, data !! ATTR_CURRENT = Some i /\ r = Bool (gt_zero i).
Proof.
  intros Habs Hr. destruct (calc_values_added _ _ _ _ Habs Hr) as (f & Hin & Hreq & Hf).
  split; [exact Hreq|]. apply table_lookup in Hin.
  destruct Hin as [[E _]|[[E _]|[[_ ->]|[E _]]]]; try discriminate E.
  unfold derive_charging, view, in_current in Hf.
  destruct (data !! ATTR_CURRENT) as [i|]; [|discriminate Hf].
  exists i. split; [reflexivity | congruence].
Qed.

Lemma added_runtime values data r :
  data !! ATTR_RUNTIME = None ->
  snd (calc_values values data) !! ATTR_RUNTIME = Some r ->
  ATTR_RUNTIME ∈ values /\
  exists i c, data !! ATTR_CURRENT = Some i /\ data !! ATTR_CYCLE_CHRG = Some c /\
              lt_zero i = true /\ runtime_value c i = Ok r.
Proof.
  intros Habs Hr. destruct (calc_values_added _ _ _ _ Habs Hr) as (f & Hin & Hreq & Hf).
  split; [exact Hreq|]. apply table_lookup in Hin.
  destruct Hin as [[E _]|[[E _]|[[E _]|[_ ->]]]]; try discriminate E.
  unfold derive_runtime, view, in_current, in_cycle_chrg in Hf.
  destruct (data !! ATTR_CURRENT) as [i|], (data !! ATTR_CYCLE_CHRG) as [c|];
    try discriminate Hf.
  destruct (lt_zero i) eqn:Hlt; [|discriminate Hf].
  exists i, c. split; [reflexivity|]. split; [reflexivity|]. split; [exact Hlt|].
  destruct (runtime_value c i); cbn [rbind] in Hf; congruence.
Qed.

(** X8: whatever calc_values adds is what its rule prescribes, computed from
    the inputs of the original mapping: a new cycle-capacity is
    voltage * cycle-charge, a new power is voltage * current, a new charging
    flag is (current > 0), and a new runtime is
    int(cycle-charge / abs(current) * 3600) with current < 0; in each case
    the key was requested and the inputs were present. *)
Theorem calc_values_added_sound (values : gset string) (data : data_t) :
  (forall r, data !! ATTR_CYCLE_CAP = None ->
     snd (calc_values values data) !! ATTR_CYCLE_CAP = Some r ->
     ATTR_CYCLE_CAP ∈ values /\
     exists v c, data !! ATTR_VOLTAGE = Some v /\ data !! ATTR_CYCLE_CHRG = Some c /\
                 mul v c = Ok r) /\
  (forall r, data !! ATTR_POWER = None ->
     snd (calc_values values data) !! ATTR_POWER = Some r ->
     ATTR_POWER ∈ values /\
     exists v i, data !! ATTR_VOLTAGE = Some v /\ data !! ATTR_CURRENT = Some i /\
                 mul v i = Ok r) /\
  (forall r, data !! ATTR_BATTERY_CHARGING = None ->
     snd (calc_values values data) !! ATTR_BATTERY_CHARGING = Some r ->
     ATTR_BATTERY_CHARGING ∈ values /\
     exists i, data !! ATTR_CURRENT = Some i /\ r = Bool (gt_zero i)) /\
  (forall r, data !! ATTR_RUNTIME = None ->
     snd (calc_values values data) !! ATTR_RUNTIME = Some r ->
     ATTR_RUNTIME ∈ values /\
     exists i c, data !! ATTR_CURRENT = Some i /\ data !! ATTR_CYCLE_CHRG = Some c /\
                 lt_zero i = true /\ runtime_value c i = Ok r).
Proof.
  split; [|split; [|split]]; intros r.
  - apply added_cycle_cap.
  - apply added_power.
  - apply added_charging.
  - apply added_runtime.
Qed.

Lemma calc_values_added_sound_witness :
  data_discharging !! ATTR_RUNTIME = None /\
  snd (calc_values {[ATTR_RUNTIME]} data_discharging) !! ATTR_RUNTIME = Some (Int 7200) /\
  exists i c, data_discharging !! ATTR_CURRENT = Some i /\
              data_discharging !! ATTR_CYCLE_CHRG = Some c /\
              lt_zero i = true /\ runtime_value c i = Ok (Int 7200).
Proof.
  assert (Habs : data_discharging !! ATTR_RUNTIME = None) by reflexivity.
  assert (Hr : snd (calc_values {[ATTR_RUNTIME]} data_discharging) !! ATTR_RUNTIME
               = Some (Int 7200)) by (vm_compute; reflexivity).
  split; [exact Habs|]. split; [exact Hr|].
  destruct (calc_values_added_sound {[ATTR_RUNTIME]} data_discharging) as (_ & _ & _ & Hrt).
  exact (proj2 (Hrt (Int 7200) Habs Hr)).
Defined.

Lemma mul_type v w r :
  mul v w = Ok r -> (exists n, r = Int n) \/ (exists f, r = Float f).
Proof.
  destruct v as [a|a|a], w as [b|b|b]; cbn [mul];
    try (intros [= <-]; left; eauto; fail);
    (destruct (to_float _) as [x|?]; cbn [rbind]; [|discriminate]);
    (destruct (to_float _) as [y|?]; cbn [rbind]; [|discriminate]);
    intros [= <-]; right; eauto.
Qed.

Lemma int_type v r : int_ v = Ok r -> exists n, r = Int n.
Proof.
  destruct v as [b|z|[s|s| |s m e]]; cbn [int_]; intros [= <-]; eauto.
Qed.

Lemma runtime_value_type c i r : runtime_value c i = Ok r -> exists n, r = Int n.
Proof.
  unfold runtime_value.
  destruct (truediv c (abs i)) as [q|]; cbn [rbind]; [|discriminate].
  destruct (mul q _HRS_TO_SECS) as [s|]; cbn [rbind]; [|discriminate].
  apply int_type.
Qed.

(** X9: the values calc_values adds have fixed Python types: a new runtime
    is an int, a new charging flag is a bool, and a new cycle-capacity or
    power is an int or a float, never a bool. *)
Theorem calc_values_added_types (values : gset string) (data : data_t) :
  (forall r, data !! ATTR_RUNTIME = None ->
     snd (calc_values values data) !! ATTR_RUNTIME = Some r -> exists n, r = Int n) /\
  (forall r, data !! ATTR_BATTERY_CHARGING = None ->
     snd (calc_values values data) !! ATTR_BATTERY_CHARGING = Some r ->
     exists b, r = Bool b) /\
  (forall r, data !! ATTR_CYCLE_CAP = None ->
     snd (calc_values values data) !! ATTR_CYCLE_CAP = Some r ->
     (exists n, r = Int n) \/ (exists f, r = Float f)) /\
  (forall r, data !! ATTR_POWER = None ->
     snd (calc_values values data) !! ATTR_POWER = Some r ->
     (exists n, r = Int n) \/ (exists f, r = Float f)).
Proof.
  split; [|split; [|split]]; intros r Habs Hr.
  - destruct (added_runtime _ _ _ Habs Hr) as (_ & i & c & _ & _ & _ & Hv).
    by apply runtime_value_type in Hv.
  - destruct (added_charging _ _ _ Habs Hr) as (_ & i & _ & ->). eauto.
  - destruct (added_cycle_cap _ _ _ Habs Hr) as (_ & v & c & _ & _ & Hm).
    by apply mul_type in Hm.
  - destruct (added_power _ _ _ Habs Hr) as (_ & v & i & _ & _ & Hm).
    by apply mul_type in Hm.
Qed.

Lemma calc_values_added_types_witness :
  data_discharging !! ATTR_RUNTIME = None /\
  snd (calc_values {[ATTR_RUNTIME]} data_discharging) !! ATTR_RUNTIME = Some (Int 7200) /\
  exists n, Int 7200 = Int n.
Proof.
  assert (Habs : data_discharging !! ATTR_RUNTIME = None) by reflexivity.
  assert (Hr : snd (calc_values {[ATTR_RUNTIME]} data_discharging) !! ATTR_RUNTIME
               = Some (Int 7200)) by (vm_compute; reflexivity).
  split; [exact Habs|]. split; [exact Hr|].
  destruct (calc_values_added_types {[ATTR_RUNTIME]} data_discharging) as (Hrt & _).
  exact (Hrt (Int 7200) Habs Hr).
Defined.

Lemma lt_zero_not_gt_zero i : lt_zero i = true -> gt_zero i = false.
Proof.
  destruct i as [b|z|f]; cbn [lt_zero gt_zero].
  - destruct b; discriminate.
  - intros H. apply Z.ltb_lt in H. apply Z.ltb_ge. lia.
  - intros H. destruct (negative_float f H) as [->|(m & e & ->)]; reflexivity.
Qed.

(** X10: a runtime and a charging flag derived by the same call agree: if
    the call added a runtime (so the battery is discharging), a charging
    flag it added is false. *)
Theorem runtime_implies_not_charging (values : gset string) (data : data_t) rt flag :
  data !! ATTR_RUNTIME = None ->
  data !! ATTR_BATTERY_CHARGING = None ->
  snd (calc_values values data) !! ATTR_RUNTIME = Some rt ->
  snd (calc_values values data) !! ATTR_BATTERY_CHARGING = Some flag ->
  flag = Bool false.
Proof.
  intros Hrt0 Hfl0 Hrt Hfl.
  destruct (added_runtime _ _ _ Hrt0 Hrt) as (_ & i & c & Hi & _ & Hlt & _).
  destruct (added_charging _ _ _ Hfl0 Hfl) as (_ & i' & Hi' & ->).
  rewrite Hi in Hi'. inversion Hi'; subst i'.
  by rewrite (lt_zero_not_gt_zero i Hlt).
Qed.

Lemma runtime_implies_not_charging_witness :
  snd (calc_values {[ATTR_RUNTIME; ATTR_BATTERY_CHARGING]} data_discharging)
    !! ATTR_RUNTIME = Some (Int 7200) /\
  snd (calc_values {[ATTR_RUNTIME; ATTR_BATTERY_CHARGING]} data_discharging)
    !! ATTR_BATTERY_CHARGING = Some (Bool (gt_zero (flit (-5)))) /\
  Bool (gt_zero (flit (-5))) = Bool false.
Proof.
  assert (Hrt : snd (calc_values {[ATTR_RUNTIME; ATTR_BATTERY_CHARGING]} data_discharging)
                  !! ATTR_RUNTIME = Some (Int 7200)) by (vm_compute; reflexivity).
  assert (Hfl : snd (calc_values {[ATTR_RUNTIME; ATTR_BATTERY_CHARGING]} data_discharging)
                  !! ATTR_BATTERY_CHARGING = Some (Bool (gt_zero (flit (-5)))))
    by (vm_compute; reflexivity).
  split; [exact Hrt|]. split; [exact Hfl|].
  exact (runtime_implies_not_charging {[ATTR_RUNTIME; ATTR_BATTERY_CHARGING]}
           data_discharging (Int 7200) (Bool (gt_zero (flit (-5))))
           eq_refl eq_refl Hrt Hfl).
Defined.

(** ** Where an exception comes from *)

Lemma exec_Raise_view values tbl :
  Forall (fun tf => is_target (fst tf)) tbl ->
  forall d e, fst (exec values tbl d) = Raise e ->
    exists t f, In (t, f) tbl /\ t ∈ values /\ f (view d) = Raise e.
Proof.
  induction 1 as [|[t f] tbl Ht _ IH]; intros d e; [discriminate|].
  cbn [fst] in Ht. rewrite exec_cons.
  destruct (outcome values t f d) as [o|e'] eqn:Ho.
  - intros H. destruct (IH _ _ H) as (t1 & f1 & Hin & Hreq & Hf).
    exists t1, f1. split; [by right|]. split; [exact Hreq|].
    by rewrite view_put in Hf.
  - cbn [fst]. intros [= ->]. apply outcome_Raise in Ho as (Hreq & _ & Hf).
    exists t, f. split; [by left | by split].
Qed.

(** X11: an exception of calc_values is the exception of one of its three
    arithmetic expressions, evaluated on the inputs of the original mapping:
    voltage * cycle-charge, voltage * current, or, with current < 0,
    int(cycle-charge / abs(current) * 3600); and it is an OverflowError or a
    ValueError. *)
Theorem calc_values_error_origin (values : gset string) (data : data_t) e :
  fst (calc_values values data) = Raise e ->
  (e = OverflowError \/ e = ValueError) /\
  ((exists v c, data !! ATTR_VOLTAGE = Some v /\ data !! ATTR_CYCLE_CHRG = Some c /\
                mul v c = Raise e) \/
   (exists v i, data !! ATTR_VOLTAGE = Some v /\ data !! ATTR_CURRENT = Some i /\
                mul v i = Raise e) \/
   (exists i c, data !! ATTR_CURRENT = Some i /\ data !! ATTR_CYCLE_CHRG = Some c /\
                lt_zero i = true /\ runtime_value c i = Raise e)).
Proof.
  intros H. split; [exact (calc_values_Raise _ _ _ H)|].
  rewrite calc_values_exec in H.
  destruct (exec_Raise_view values table table_all_targets _ _ H) as (t & f & Hin & _ & Hf).
  apply table_lookup in Hin.
  destruct Hin as [[_ ->]|[[_ ->]|[[_ ->]|[_ ->]]]].
  - left. unfold derive_cycle_cap, view, in_voltage, in_cycle_chrg in Hf.
    destruct (data !! ATTR_VOLTAGE) as [v|], (data !! ATTR_CYCLE_CHRG) as [c|];
      try discriminate Hf.
    exists v, c. split; [reflexivity|]. split; [reflexivity|].
    destruct (mul v c); cbn [rbind] in Hf; congruence.
  - right. left. unfold derive_power, view, in_voltage, in_current in Hf.
    destruct (data !! ATTR_VOLTAGE) as [v|], (data !! ATTR_CURRENT) as [i|];
      try discriminate Hf.
    exists v, i. split; [reflexivity|]. split; [reflexivity|].
    destruct (mul v i); cbn [rbind] in Hf; congruence.
  - unfold derive_charging in Hf. destruct (in_current (view data)); discriminate Hf.
  - right. right. unfold derive_runtime, view, in_current, in_cycle_chrg in Hf.
    destruct (data !! ATTR_CURRENT) as [i|], (data !! ATTR_CYCLE_CHRG) as [c|];
      try discriminate Hf.
    destruct (lt_zero i) eqn:Hlt; [|discriminate Hf].
    exists i, c. split; [reflexivity|]. split; [reflexivity|]. split; [exact Hlt|].
    destruct (runtime_value c i); cbn [rbind] in Hf; congruence.
Qed.

Lemma calc_values_error_origin_witness :
  fst (calc_values {[ATTR_RUNTIME]} data_overflow) = Raise OverflowError /\
  (OverflowError = OverflowError \/ OverflowError = ValueError).
Proof.
  assert (H : fst (calc_values {[ATTR_RUNTIME]} data_overflow) = Raise OverflowError)
    by (vm_compute; reflexivity).
  split; [exact H|].
  exact (proj1 (calc_values_error_origin {[ATTR_RUNTIME]} data_overflow OverflowError H)).
Defined.

(** ** Float measurements *)

Lemma float_mul a b : mul (Float a) (Float b) = Ok (Float (SFmul prec emax a b)).
Proof. reflexivity. Qed.

Lemma derive_cycle_cap_float d e :
  float_inputs d -> derive_cycle_cap (view d) <> Raise e.
Proof.
  intros Hfl. unfold derive_cycle_cap, view, in_voltage, in_cycle_chrg.
  destruct (d !! ATTR_VOLTAGE) as [v|] eqn:Hv; [|discriminate].
  destruct (d !! ATTR_CYCLE_CHRG) as [c|] eqn:Hc; [|discriminate].
  destruct (Hfl ATTR_VOLTAGE v) as [a ->]; [tauto | exact Hv |].
  destruct (Hfl ATTR_CYCLE_CHRG c) as [b ->]; [tauto | exact Hc |].
  rewrite float_mul. discriminate.
Qed.

Lemma derive_power_float d e :
  float_inputs d -> derive_power (view d) <> Raise e.
Proof.
  intros Hfl. unfold derive_power, view, in_voltage, in_current.
  destruct (d !! ATTR_VOLTAGE) as [v|] eqn:Hv; [|discriminate].
  destruct (d !! ATTR_CURRENT) as [i|] eqn:Hi; [|discriminate].
  destruct (Hfl ATTR_VOLTAGE v) as [a ->]; [tauto | exact Hv |].
  destruct (Hfl ATTR_CURRENT i) as [b ->]; [tauto | exact Hi |].
  rewrite float_mul. discriminate.
Qed.

Lemma derive_charging_total x e : derive_charging x <> Raise e.
Proof. unfold derive_charging. destruct (in_current x); discriminate. Qed.

Lemma exec_no_raise values tbl :
  Forall (fun tf => is_target (fst tf)) tbl ->
  forall d, (forall tf, In tf tbl -> forall e, snd tf (view d) <> Raise e) ->
    exists d', exec values tbl d = (Ok tt, d').
Proof.
  induction 1 as [|[t f] tbl Ht _ IH]; intros d Hall.
  - eexists. reflexivity.
  - cbn [fst] in Ht. rewrite exec_cons.
    destruct (outcome values t f d) as [o|e] eqn:Ho.
    + apply IH. intros tf Hin e. rewrite view_put by exact Ht. apply Hall. by right.
    + apply outcome_Raise in Ho as (_ & _ & Hf).
      exfalso. exact (Hall (t, f) (or_introl eq_refl) e Hf).
Qed.

Lemma float_prefix_cap values d :
  float_inputs d ->
  exists d1, exec values [(ATTR_CYCLE_CAP, derive_cycle_cap)] d = (Ok tt, d1).
Proof.
  intros Hfl. apply exec_no_raise; [table_side|].
  intros tf [ <- | [] ] e. cbn [snd]. by apply derive_cycle_cap_float.
Qed.

Lemma float_prefix_cap_power values d :
  float_inputs d ->
  exists d2, exec values [(ATTR_CYCLE_CAP, derive_cycle_cap); (ATTR_POWER, derive_power)] d
             = (Ok tt, d2).
Proof.
  intros Hfl. apply exec_no_raise; [table_side|].
  intros tf [ <- | [ <- | [] ] ] e; cbn [snd].
  - by apply derive_cycle_cap_float.
  - by apply derive_power_float.
Qed.

(** X12: on float measurements the first three rules cannot fail.  If the
    inputs that are present are floats, then a requested, absent
    cycle-capacity, power or charging flag whose inputs are present is always
    added, with the float product or the comparison as its value, and the
    only expression that can raise is the runtime expression. *)
Theorem float_data_derived (values : gset string) (data : data_t) :
  float_inputs data ->
  (forall a b, ATTR_CYCLE_CAP ∈ values -> data !! ATTR_CYCLE_CAP = None ->
     data !! ATTR_VOLTAGE = Some (Float a) -> data !! ATTR_CYCLE_CHRG = Some (Float b) ->
     snd (calc_values values data) !! ATTR_CYCLE_CAP
       = Some (Float (SFmul prec emax a b))) /\
  (forall a b, ATTR_POWER ∈ values -> data !! ATTR_POWER = None ->
     data !! ATTR_VOLTAGE = Some (Float a) -> data !! ATTR_CURRENT = Some (Float b) ->
     snd (calc_values values data) !! ATTR_POWER
       = Some (Float (SFmul prec emax a b))) /\
  (forall b, ATTR_BATTERY_CHARGING ∈ values -> data !! ATTR_BATTERY_CHARGING = None ->
     data !! ATTR_CURRENT = Some (Float b) ->
     snd (calc_values values data) !! ATTR_BATTERY_CHARGING
       = Some (Bool (SFltb fzero b))) /\
  (forall e, fst (calc_values values data) = Raise e ->
     exists b c, data !! ATTR_CURRENT = Some (Float b) /\
                 data !! ATTR_CYCLE_CHRG = Some (Float c) /\
                 SFltb b fzero = true /\
                 runtime_value (Float c) (Float b) = Raise e).
Proof.
  intros Hfl. split; [|split; [|split]].
  - intros a b Hreq Habs Hv Hc. rewrite calc_values_exec.
    change table with ([] ++ (ATTR_CYCLE_CAP, derive_cycle_cap)
      :: [(ATTR_POWER, derive_power); (ATTR_BATTERY_CHARGING, derive_charging);
          (ATTR_RUNTIME, derive_runtime)]).
    rewrite (exec_adds values [] _ _ _ data data (Float (SFmul prec emax a b)));
      [| constructor | intros [] | reflexivity | exact Hreq | exact Habs |].
    + apply exec_keeps; [table_side | apply lookup_insert_eq].
    + unfold derive_cycle_cap, view, in_voltage, in_cycle_chrg. by rewrite Hv, Hc.
  - intros a b Hreq Habs Hv Hi. rewrite calc_values_exec.
    destruct (float_prefix_cap values data Hfl) as [d1 Hd1].
    change table with ([(ATTR_CYCLE_CAP, derive_cycle_cap)] ++ (ATTR_POWER, derive_power)
      :: [(ATTR_BATTERY_CHARGING, derive_charging); (ATTR_RUNTIME, derive_runtime)]).
    rewrite (exec_adds values _ _ _ _ data d1 (Float (SFmul prec emax a b)));
      [| table_side | table_side | exact Hd1 | exact Hreq | exact Habs |].
    + apply exec_keeps; [table_side | apply lookup_insert_eq].
    + unfold derive_power, view, in_voltage, in_current. by rewrite Hv, Hi.
  - intros b Hreq Habs Hi. rewrite calc_values_exec.
    destruct (float_prefix_cap_power values data Hfl) as [d2 Hd2].
    change table with ([(ATTR_CYCLE_CAP, derive_cycle_cap); (ATTR_POWER, derive_power)]
      ++ (ATTR_BATTERY_CHARGING, derive_charging) :: [(ATTR_RUNTIME, derive_runtime)]).
    rewrite (exec_adds values _ _ _ _ data d2 (Bool (SFltb fzero b)));
      [| table_side | table_side | exact Hd2 | exact Hreq | exact Habs |].
    + apply exec_keeps; [table_side | apply lookup_insert_eq].
    + unfold derive_charging, view, in_current. by rewrite Hi.
  - intros e H. rewrite calc_values_exec in H.
    destruct (exec_Raise_view values table table_all_targets _ _ H) as (t & f & Hin & _ & Hf).
    apply table_lookup in Hin.
    destruct Hin as [[_ ->]|[[_ ->]|[[_ ->]|[_ ->]]]].
    + by apply derive_cycle_cap_float in Hf.
    + by apply derive_power_float in Hf.
    + by apply derive_charging_total in Hf.
    + unfold derive_runtime, view, in_current, in_cycle_chrg in Hf.
      destruct (data !! ATTR_CURRENT) as [i|] eqn:Hi; [|discriminate Hf].
      destruct (data !! ATTR_CYCLE_CHRG) as [c|] eqn:Hc; [|discriminate Hf].
      destruct (Hfl ATTR_CURRENT i) as [b ->]; [tauto | exact Hi |].
      destruct (Hfl ATTR_CYCLE_CHRG c) as [c' ->]; [tauto | exact Hc |].
      destruct (lt_zero (Float b)) eqn:Hlt; [|discriminate Hf].
      exists b, c'. split; [reflexivity|]. split; [reflexivity|]. split; [exact Hlt|].
      destruct (runtime_value (Float c') (Float b)); cbn [rbind] in Hf; congruence.
Qed.

Lemma float_inputs_data_power : float_inputs data_power.
Proof.
  intros k v [ -> | [ -> | -> ] ] H; vm_compute in H; inversion H; eauto.
Defined.

Lemma float_data_derived_witness :
  float_inputs data_power /\
  snd (calc_values {[ATTR_POWER; ATTR_BATTERY_CHARGING]} data_power) !! ATTR_POWER
    = Some (flit 24).
Proof.
  split; [exact float_inputs_data_power|].
  destruct (float_data_derived {[ATTR_POWER; ATTR_BATTERY_CHARGING]} data_power
              float_inputs_data_power) as (_ & Hpower & _).
  refine (eq_trans (Hpower _ _ _ _ _ _) _).
  - apply elem_of_union_l, elem_of_singleton. reflexivity.
  - reflexivity.
  - vm_compute. reflexivity.
  - vm_compute. reflexivity.
  - vm_compute. reflexivity.
Defined.

(** ** Requesting more, requesting less *)

Lemma outcome_requested_ext values values' t f ds db :
  t ∈ values -> t ∈ values' -> view ds = view db -> ds !! t = db !! t ->
  outcome values t f ds = outcome values' t f db.
Proof.
  intros Hreq Hreq' Hview Ht. unfold outcome.
  rewrite (bool_decide_eq_true_2 _ Hreq), (bool_decide_eq_true_2 _ Hreq'), Hview, Ht.
  reflexivity.
Qed.

Lemma exec_request_mono values values' tbl :
  values ⊆ values' ->
  Forall (fun tf => is_target (fst tf)) tbl -> NoDup (map fst tbl) ->
  forall ds db db',
    view ds = view db ->
    (forall k, k ∈ values -> ds !! k = db !! k) ->
    (forall k v, ds !! k = Some v -> db !! k = Some v) ->
    (forall t, In t (map fst tbl) -> ds !! t = db !! t) ->
    exec values' tbl db = (Ok tt, db') ->
    exists ds', exec values tbl ds = (Ok tt, ds') /\
                (forall k, k ∈ values -> ds' !! k = db' !! k) /\
                (forall k v, ds' !! k = Some v -> db' !! k = Some v).
Proof.
  intros Hsub Htg. induction Htg as [|[t f] tbl Ht _ IH];
    intros Hnd ds db db' Hview Hval Hle Hrem Hbig.
  - rewrite exec_nil in Hbig. inversion Hbig; subst db'.
    exists ds. split; [reflexivity | by split].
  - cbn [fst] in Ht. cbn [map fst] in Hnd, Hrem.
    inversion Hnd as [|? ? Hnotin Hnd']; subst.
    rewrite list_elem_of_In in Hnotin.
    rewrite exec_cons in Hbig.
    destruct (outcome values' t f db) as [ob|e] eqn:Hob; [|discriminate Hbig].
    assert (Ht_eq : ds !! t = db !! t) by (apply Hrem; by left).
    assert (Hos : exists os, outcome values t f ds = Ok os /\
                             (t ∈ values -> os = ob) /\ (t ∉ values -> os = None)).
    { destruct (decide (t ∈ values)) as [Hreq|Hreq].
      - exists ob. split; [|by split].
        rewrite <- Hob. apply outcome_requested_ext; auto.
      - exists None. split; [by apply outcome_unrequested | by split]. }
    destruct Hos as (os & Hos & Hin & Hout).
    destruct (IH Hnd' (put t os ds) (put t ob db) db') as (ds' & Hrun & Hv' & Hle').
    + by rewrite !view_put.
    + intros k Hk. destruct (decide (k = t)) as [->|Hne].
      * rewrite (Hin Hk). destruct ob as [v|]; cbn [put];
          [by rewrite !lookup_insert_eq | exact Ht_eq].
      * rewrite !put_lookup_ne by exact Hne. by apply Hval.
    + intros k v Hk. destruct (decide (k = t)) as [->|Hne].
      * destruct (decide (t ∈ values)) as [Hreq|Hreq].
        -- rewrite (Hin Hreq) in Hk. destruct ob as [w|]; cbn [put] in *.
           ++ by rewrite lookup_insert_eq in *.
           ++ by apply Hle.
        -- rewrite (Hout Hreq) in Hk. cbn [put] in Hk.
           assert (Hdb : db !! t = Some v) by (by apply Hle).
           rewrite (outcome_present values' t f db v Hdb) in Hob.
           inversion Hob; subst ob. exact Hdb.
      * rewrite put_lookup_ne in Hk by exact Hne.
        rewrite put_lookup_ne by exact Hne. by apply Hle.
    + intros t1 Hin1. assert (t1 <> t) by (intros ->; contradiction).
      rewrite !put_lookup_ne by assumption. apply Hrem. by right.
    + exact Hbig.
    + exists ds'. split; [|by split]. by rewrite exec_cons, Hos.
Qed.

(** X13: asking for fewer keys changes nothing for the keys still asked
    for.  If calc_values returns normally for a requested set, it returns
    normally for every subset of it, with a mapping that binds each key of
    the subset as the larger call does and contains nothing the larger call's
    mapping lacks. *)
Theorem calc_values_request_monotone (values values' : gset string) (data data' : data_t) :
  values ⊆ values' ->
  calc_values values' data = (Ok tt, data') ->
  exists d, calc_values values data = (Ok tt, d) /\
            (forall k, k ∈ values -> d !! k = data' !! k) /\
            (forall k v, d !! k = Some v -> data' !! k = Some v).
Proof.
  intros Hsub Hbig. rewrite calc_values_exec in Hbig.
  destruct (exec_request_mono values values' table Hsub table_all_targets targets_NoDup
              data data data') as (d & Hrun & Hv & Hle); auto.
  exists d. split; [|by split]. by rewrite calc_values_exec.
Qed.

Lemma calc_values_request_monotone_witness :
  exists d, calc_values {[ATTR_POWER]} data_power = (Ok tt, d) /\
            (forall k, k ∈ ({[ATTR_POWER]} : gset string) ->
               d !! k = (<[ATTR_BATTERY_CHARGING := Bool true]>
                           (<[ATTR_POWER := flit 24]> data_power)) !! k) /\
            (forall k v, d !! k = Some v ->
               (<[ATTR_BATTERY_CHARGING := Bool true]>
                  (<[ATTR_POWER := flit 24]> data_power)) !! k = Some v).
Proof.
  apply (calc_values_request_monotone {[ATTR_POWER]} {[ATTR_POWER; ATTR_BATTERY_CHARGING]}
           data_power).
  - apply union_subseteq_l.
  - vm_compute. reflexivity.
Defined.

(** ** Completeness on a normal return *)

Lemma exec_Ok_lookup values tbl :
  Forall (fun tf => is_target (fst tf)) tbl -> NoDup (map fst tbl) ->
  forall d d', exec values tbl d = (Ok tt, d') ->
    forall t f, In (t, f) tbl ->
      exists o, outcome values t f d = Ok o /\ d' !! t = put t o d !! t.
Proof.
  induction 1 as [|[t0 f0] tbl Ht0 _ IH]; intros Hnd d d' Hrun t f Hin; [destruct Hin|].
  cbn [fst] in Ht0. cbn [map fst] in Hnd.
  inversion Hnd as [|? ? Hnotin Hnd']; subst.
  rewrite list_elem_of_In in Hnotin.
  rewrite exec_cons in Hrun.
  destruct (outcome values t0 f0 d) as [o0|e] eqn:Ho0; [|discriminate Hrun].
  destruct Hin as [Heq|Hin].
  - inversion Heq; subst t0 f0. exists o0. split; [exact Ho0|].
    pose proof (exec_lookup_notin values tbl (put t o0 d) t Hnotin) as Hl.
    rewrite Hrun in Hl. exact Hl.
  - assert (Hne : t <> t0).
    { intros ->. apply Hnotin. change t0 with (fst (t0, f)). by apply in_map. }
    destruct (IH Hnd' _ _ Hrun t f Hin) as (o & Ho & Hl).
    rewrite outcome_put in Ho by assumption.
    exists o. split; [exact Ho|]. rewrite Hl.
    destruct o as [v|]; cbn [put]; [by rewrite !lookup_insert_eq|].
    by apply put_lookup_ne.
Qed.

Lemma calc_values_Ok_lookup values data data' t f :
  calc_values values data = (Ok tt, data') -> In (t, f) table ->
  t ∈ values -> data !! t = None ->
  exists o, f (view data) = Ok o /\ data' !! t = o.
Proof.
  intros Hrun Hin Hreq Habs. rewrite calc_values_exec in Hrun.
  destruct (exec_Ok_lookup values table table_all_targets targets_NoDup _ _ Hrun t f Hin)
    as (o & Ho & Hl).
  rewrite outcome_open in Ho by assumption.
  exists o. split; [exact Ho|]. rewrite Hl.
  destruct o as [v|]; cbn [put]; [apply lookup_insert_eq | exact Habs].
Qed.

(** X14: a call that returns normally has filled in everything it was asked
    for and could derive: each requested target whose inputs are present
    (and, for the runtime, whose current is negative) is in the mapping
    afterwards. *)
Theorem calc_values_complete (values : gset string) (data data' : data_t) :
  calc_values values data = (Ok tt, data') ->
  (ATTR_CYCLE_CAP ∈ values ->
     is_Some (data !! ATTR_VOLTAGE) -> is_Some (data !! ATTR_CYCLE_CHRG) ->
     is_Some (data' !! ATTR_CYCLE_CAP)) /\
  (ATTR_POWER ∈ values ->
     is_Some (data !! ATTR_VOLTAGE) -> is_Some (data !! ATTR_CURRENT) ->
     is_Some (data' !! ATTR_POWER)) /\
  (ATTR_BATTERY_CHARGING ∈ values ->
     is_Some (data !! ATTR_CURRENT) ->
     is_Some (data' !! ATTR_BATTERY_CHARGING)) /\
  (forall i, ATTR_RUNTIME ∈ values ->
     data !! ATTR_CURRENT = Some i -> is_Some (data !! ATTR_CYCLE_CHRG) ->
     lt_zero i = true ->
     is_Some (data' !! ATTR_RUNTIME)).
Proof.
  intros Hrun.
  assert (Hkeep : forall k, is_Some (data !! k) -> is_Some (data' !! k)).
  { intros k [v Hv]. exists v.
    pose proof (calc_values_extends values data) as Hext. rewrite Hrun in Hext.
    by apply (extends_Some values data). }
  split; [|split; [|split]].
  - intros Hreq [v Hv] [c Hc].
    destruct (data !! ATTR_CYCLE_CAP) as [x|] eqn:Habs; [apply Hkeep; rewrite Habs; eauto|].
    destruct (calc_values_Ok_lookup values data data' ATTR_CYCLE_CAP derive_cycle_cap Hrun)
      as (o & Ho & ->); [unfold table; cbn [In]; tauto | exact Hreq | exact Habs |].
    unfold derive_cycle_cap, view, in_voltage, in_cycle_chrg in Ho. rewrite Hv, Hc in Ho.
    destruct (mul v c); cbn [rbind] in Ho; inversion Ho; eauto.
  - intros Hreq [v Hv] [i Hi].
    destruct (data !! ATTR_POWER) as [x|] eqn:Habs; [apply Hkeep; rewrite Habs; eauto|].
    destruct (calc_values_Ok_lookup values data data' ATTR_POWER derive_power Hrun)
      as (o & Ho & ->); [unfold table; cbn [In]; tauto | exact Hreq | exact Habs |].
    unfold derive_power, view, in_voltage, in_current in Ho. rewrite Hv, Hi in Ho.
    destruct (mul v i); cbn [rbind] in Ho; inversion Ho; eauto.
  - intros Hreq [i Hi].
    destruct (data !! ATTR_BATTERY_CHARGING) as [x|] eqn:Habs;
      [apply Hkeep; rewrite Habs; eauto|].
    destruct (calc_values_Ok_lookup values data data' ATTR_BATTERY_CHARGING derive_charging Hrun)
      as (o & Ho & ->); [unfold table; cbn [In]; tauto | exact Hreq | exact Habs |].
    unfold derive_charging, view, in_current in Ho. rewrite Hi in Ho.
    inversion Ho; eauto.
  - intros i Hreq Hi [c Hc] Hlt.
    destruct (data !! ATTR_RUNTIME) as [x|] eqn:Habs; [apply Hkeep; rewrite Habs; eauto|].
    destruct (calc_values_Ok_lookup values data data' ATTR_RUNTIME derive_runtime Hrun)
      as (o & Ho & ->); [unfold table; cbn [In]; tauto | exact Hreq | exact Habs |].
    unfold derive_runtime, view, in_current, in_cycle_chrg in Ho. rewrite Hi, Hc, Hlt in Ho.
    destruct (runtime_value c i); cbn [rbind] in Ho; inversion Ho; eauto.
Qed.

Lemma calc_values_complete_witness :
  is_Some ((<[ATTR_BATTERY_CHARGING := Bool true]> (<[ATTR_POWER := flit 24]> data_power))
             !! ATTR_POWER).
Proof.
  assert (Hrun : calc_values {[ATTR_POWER; ATTR_BATTERY_CHARGING]} data_power
                 = (Ok tt, <[ATTR_BATTERY_CHARGING := Bool true]>
                             (<[ATTR_POWER := flit 24]> data_power)))
    by (vm_compute; reflexivity).
  destruct (calc_values_complete _ _ _ Hrun) as (_ & Hpower & _).
  apply Hpower.
  - apply elem_of_union_l, elem_of_singleton. reflexivity.
  - exists (flit 12). reflexivity.
  - exists (flit 2). reflexivity.
Defined.
